(** * FIRESONG [Evolution.py]: source-density evolution laws and source populations

    A shallow embedding of [Evolution.py] and the properties of it that
    the specification states.

    Numeric model.  Python and numpy floats are modelled by the real
    numbers of the Standard Library: [+], [-], [*] are exact, [x ** y] on
    a positive base is [Rpower x y], [np.log10 x] is [ln x / ln 10], and
    [x ** 2.] is [x * x].  numpy's division never raises (it yields
    inf or nan on a zero divisor); it is modelled by the total division
    of [R], and every theorem that relies on the value of a quotient
    assumes its divisor is not zero.  Division of two Python floats raises
    [ZeroDivisionError] on a zero divisor and is modelled by [py_div].
    The real-number model says what the code computes up to rounding,
    and only while no operation overflows or underflows: the properties
    of the evolution laws are stated on the redshifts 0 to 10, where that
    holds.

    Where a property depends on the rounding itself (the number of edges
    of the table of [setup_redshift_cdf], its last edge, the order of the
    edges), the code is modelled operation by operation over a rounding
    [rnd] ([FloatUnit], [FloatLaws]), of which binary64 is an instance
    and exact arithmetic another ([exact_unit]); the definitions so
    modelled carry the suffix [_fl].

    External collaborators.  [cosmolopy.distance], [scipy.integrate.quad]
    and [np.random.rand] are not part of the repository: they are
    the classes [CosmologyProvider], [Integrator] and
    [RandomSource], over which the section [Methods] is stated. *)

From Stdlib Require Import Reals Lra Lia ZArith List String Sorted.
From stdpp Require Import base option gmap strings.

Open Scope R_scope.

(** ** Exceptions and results *)

(** The exceptions the module can raise.  Those raised by a [raise]
    statement of the source carry its message; those raised by the
    interpreter carry the datum the interpreter complains about. *)
Inductive type_error : Type :=
| wrong_arity (takes given : nat)
| not_callable.

Inductive exn : Type :=
| NotImplementedError (msg : string)
| TypeError (why : type_error)
| AttributeError (attr : string)
| ZeroDivisionError
| IndexError
| ValueError.

Inductive result (A : Type) : Type :=
| Ok (a : A)
| Raise (e : exn).
Arguments Ok {A} a.
Arguments Raise {A} e.

#[global] Instance result_ret : MRet result := fun A a => Ok a.
#[global] Instance result_bind : MBind result := fun A B k r =>
  match r with
  | Ok a => k a
  | Raise e => Raise e
  end.

Definition is_ok {A} (r : result A) : bool :=
  match r with Ok _ => true | Raise _ => false end.

(** The message of a [NotImplementedError]. *)
Definition not_implemented_message {A} (r : result A) : option string :=
  match r with
  | Raise (NotImplementedError msg) => Some msg
  | _ => None
  end.

(** ** numpy and Python float primitives *)

(** [np.log10]. *)
Definition log10 (x : R) : R := ln x / ln 10.

(** Python's [x ** y] and [np.power x y] for a positive base [x], up
    to rounding and as long as the result is in the range of the floats:
    beyond it the float power overflows (Python raises [OverflowError])
    or underflows to zero, and on a zero base with a negative exponent
    Python raises [ZeroDivisionError]. *)
Definition fpow (x y : R) : R := Rpower x y.

(** [x ** 2.]: the square, for every real [x]. *)
Definition sq (x : R) : R := x * x.

(** Division of two Python floats. *)
Definition py_div (x y : R) : result R :=
  if Req_dec_T y 0 then Raise ZeroDivisionError else Ok (x / y).

(** ** The evolution laws *)

Module Evol.

(** The classes of the module that implement a law, and their abstract
    base. *)
Inductive class : Type :=
| Evolution
| NoEvolution
| HopkinsBeacom2006StarFormationRate
| YukselEtAl2008StarFormationRate
| CandelsClash2015SNRate.

#[global] Instance class_eq_dec : EqDecision class.
Proof. solve_decision. Defined.

(** The base class of a class; [None] stands for [object]. *)
Definition base (c : class) : option class :=
  match c with
  | Evolution => None
  | _ => Some Evolution
  end.

(** Method resolution order, [object] left out. *)
Definition mro (c : class) : list class :=
  match base c with
  | None => [c]
  | Some b => [c; b]
  end.

(** The methods a class body defines, each with its parameter list. *)
Definition class_dict (c : class) : gmap string (list string) :=
  match c with
  | Evolution =>
      <["__init__" := []]>
      (<["parametrization" := ["self"; "x"]]>
      (<["__call__" := ["self"; "z"]]> ∅))
  | YukselEtAl2008StarFormationRate =>
      <["__call__" := ["self"; "z"]]>
      (<["parametrization" := ["self"; "x"]]> ∅)
  | _ => <["parametrization" := ["self"; "x"]]> ∅
  end.

(** Attribute lookup along the method resolution order: the first class
    that defines [name], with the parameters of its definition. *)
Fixpoint resolve_in (cs : list class) (name : string)
  : option (class * list string) :=
  match cs with
  | [] => None
  | c :: cs' =>
      match class_dict c !! name with
      | Some params => Some (c, params)
      | None => resolve_in cs' name
      end
  end.

Definition resolve (c : class) (name : string) : option (class * list string) :=
  resolve_in (mro c) name.

(** An instance: its class (no law stores an attribute). *)
Record instance : Type := Instance { class_of : class }.

(** Binding [given] positional arguments to a parameter list. *)
Definition bind_args (params : list string) (given : nat) : result unit :=
  if Nat.eqb (length params) given then Ok tt
  else Raise (TypeError (wrong_arity (length params) given)).

(** [c()]: a fresh object is passed as the only positional argument to
    the [__init__] found along the method resolution order (whose body is
    [pass]); [object.__init__] takes the object alone. *)
Definition instantiate (c : class) : result instance :=
  match resolve c "__init__" with
  | Some (_, params) => _ ← bind_args params 1; Ok (Instance c)
  | None => Ok (Instance c)
  end.

(** The dictionary of [get_evolution]. *)
Definition evolutions : gmap string class :=
  <["NoEvolution" := NoEvolution]>
  (<["HB2006SFR" := HopkinsBeacom2006StarFormationRate]>
  (<["YMKBH2008SFR" := YukselEtAl2008StarFormationRate]>
  (<["CC2015SNR" := CandelsClash2015SNRate]> ∅))).

Definition get_evolution (evol : string) : result instance :=
  match evolutions !! evol with
  | None =>
      Raise (NotImplementedError
               ("Source evolution " +:+ evol +:+ " not implemented."))
  | Some c => instantiate c
  end.

(** The body of [parametrization] in the class that defines it. *)
Definition parametrization_body (owner : class) (x : R) : result R :=
  match owner with
  | Evolution => Raise (NotImplementedError "Abstract")
  | NoEvolution => Ok 1
  | HopkinsBeacom2006StarFormationRate =>
      if Rlt_dec x 0.30963 then Ok (fpow 10 (3.28 * x - 1.82))
      else if sumbool_and _ _ _ _ (Rge_dec x 0.30963) (Rlt_dec x 0.73878)
      then Ok (fpow 10 (-0.26 * x - 0.724))
      else (* x >= 0.73878: the third test of the source, which is all
              that is left for a real x (lemma [third_test]) *)
        Ok (fpow 10 (-8.0 * x + 4.99))
  | YukselEtAl2008StarFormationRate =>
      let a := 3.4 in
      let b := -0.3 in
      let c := -3.5 in
      let B := 5160.63662037 in
      let C := 9.06337604231 in
      let eta := -10 in
      let r0 := 0.02 in
      Ok (r0 * fpow (fpow x (a * eta) + fpow (x / B) (b * eta)
                     + fpow (x / C) (c * eta)) (1 / eta))
  | CandelsClash2015SNRate =>
      let a := 0.015 in
      let b := 1.5 in
      let c := 5.0 in
      let d := 6.1 in
      Ok (a * fpow (fpow 10 x) c / (fpow (fpow 10 x / b) d + 1))
  end.

(** [self.parametrization(x)], dispatched on the class of [self]. *)
Definition parametrization (self : instance) (x : R) : result R :=
  match resolve (class_of self) "parametrization" with
  | Some (owner, _) => parametrization_body owner x
  | None => Raise (AttributeError "parametrization")
  end.

(** The body of [__call__] in the class that defines it. *)
Definition call_body (owner : class) (self : instance) (z : R) : result R :=
  match owner with
  | YukselEtAl2008StarFormationRate => parametrization self (1 + z)
  | _ => parametrization self (log10 (1 + z))
  end.

(** [self(z)]. *)
Definition evaluate (self : instance) (z : R) : result R :=
  match resolve (class_of self) "__call__" with
  | Some (owner, _) => call_body owner self z
  | None => Raise (TypeError not_callable)
  end.

(** The four names [get_evolution] knows, in the order of its dictionary. *)
Definition supported : list string :=
  ["NoEvolution"; "HB2006SFR"; "YMKBH2008SFR"; "CC2015SNR"].

(** The classes these names select. *)
Definition variants : list class :=
  [NoEvolution; HopkinsBeacom2006StarFormationRate;
   YukselEtAl2008StarFormationRate; CandelsClash2015SNRate].

(** [needle] occurs in [hay]. *)
Fixpoint occurs (needle hay : string) : bool :=
  String.prefix needle hay
  || match hay with
     | EmptyString => false
     | String _ hay' => occurs needle hay'
     end.

End Evol.

(** ** The world outside the module *)

(** A call of [scipy.integrate.quad]. *)
Record quad_call : Type := QuadCall {
  integrand : R → R;
  lower : R;
  upper : R;
}.

(** What a run changes outside the objects it is given: the integrations
    it asked for, in order, and how many variates it has taken from the
    generator of [np.random]. *)
Record world : Type := World {
  quad_log : list quad_call;
  drawn : nat;
}.

(** A computation that may raise and acts on the world; what it did
    before raising stays done. *)
Definition M (A : Type) : Type := world → result A * world.

#[global] Instance M_ret : MRet M := fun A a w => (Ok a, w).
#[global] Instance M_bind : MBind M := fun A B k m w =>
  match m w with
  | (Ok a, w') => k a w'
  | (Raise e, w') => (Raise e, w')
  end.

Definition lift {A} (r : result A) : M A := fun w => (r, w).

(** [cosmolopy.distance], on a dictionary of cosmological parameters. *)
Class CosmologyProvider : Type := {
  set_omega_k_0 : gmap string R → gmap string R;
  luminosity_distance : R → gmap string R → R;
  comoving_volume : R → gmap string R → R;
  diff_comoving_volume : R → gmap string R → R;
}.

(** The value [scipy.integrate.quad(f, a, b)[0]]. *)
Class Integrator : Type := { quad : (R → R) → R → R → R }.

(** The stream of variates of [np.random.rand]. *)
Class RandomSource : Type := { uniform : nat → R }.

(** The module-level dictionary [cosmology]. *)
Definition module_cosmology : gmap string R :=
  <["omega_M_0" := 0.308]>
  (<["omega_lambda_0" := 0.692]>
  (<["h" := 0.678]> ∅)).

(** ** numpy arrays *)

(** A float or an array of floats, as [np.random.rand] and indexing
    return them. *)
Inductive ndvalue (A : Type) : Type :=
| Scalar (x : A)
| Array (xs : list A).
Arguments Scalar {A} x.
Arguments Array {A} xs.

(** [np.arange(start, stop, step)] in exact arithmetic:
    [ceil((stop - start)/step)] values [start + i*step], none when that
    count is not positive.  On floats the quotient is rounded before its
    ceiling is taken, so that the count can be one more, and the values
    are rounded: see [arange_fl]. *)
Definition arange (start stop step : R) : result (list R) :=
  if Req_dec_T step 0 then Raise ZeroDivisionError
  else
    let n := Z.to_nat (Zceil ((stop - start) / step)) in
    Ok (map (fun i => start + INR i * step) (seq 0 n)).

(** [np.cumsum]. *)
Fixpoint cumsum_from (acc : R) (xs : list R) : list R :=
  match xs with
  | [] => []
  | x :: xs' => (acc + x) :: cumsum_from (acc + x) xs'
  end.

Definition cumsum (xs : list R) : list R := cumsum_from 0 xs.

(** [a[-1]]. *)
Definition last_item (a : list R) : result R :=
  match last a with
  | Some x => Ok x
  | None => Raise IndexError
  end.

(** [a[i]] for an index [i] that is not negative. *)
Definition getitem1 (a : list R) (i : nat) : result R :=
  match a !! i with
  | Some x => Ok x
  | None => Raise IndexError
  end.

(** [np.searchsorted(a, v)] (side ['left']) on a non-decreasing [a]: the
    first index whose entry is not below [v], [len(a)] when there is
    none. *)
Fixpoint searchsorted1 (a : list R) (v : R) : nat :=
  match a with
  | [] => 0
  | x :: a' => if Rlt_dec x v then S (searchsorted1 a' v) else 0
  end.

Definition searchsorted (a : list R) (v : ndvalue R) : ndvalue nat :=
  match v with
  | Scalar x => Scalar (searchsorted1 a x)
  | Array xs => Array (map (searchsorted1 a) xs)
  end.

(** [a[i]] for [i] an index or an array of indices. *)
Definition getitem (a : list R) (i : ndvalue nat) : result (ndvalue R) :=
  match i with
  | Scalar k => x ← getitem1 a k; Ok (Scalar x)
  | Array ks => xs ← mapM (getitem1 a) ks; Ok (Array xs)
  end.

(** ** Source populations *)

Inductive pop_class : Type :=
| SourcePopulation
| TransientSourcePopulation.

(** An instance of [SourcePopulation] or of its subclass.  The attributes
    bound by [__init__] are fields; those bound later live in
    [late_attrs], keyed by attribute name as in the instance
    dictionary. *)
Record population : Type := Population {
  cls : pop_class;
  _zlocal : R;
  Mpc2cm : R;
  GeV_per_sec_2_ergs_per_year : R;
  evolution : R → R;
  cosmology : gmap string R;
  dL1 : R;
  late_attrs : gmap string (list R);
}.

(** [self.name] for an attribute that [__init__] does not bind. *)
Definition getattr (self : population) (name : string) : result (list R) :=
  match late_attrs self !! name with
  | Some v => Ok v
  | None => Raise (AttributeError name)
  end.

(** [self.name = v]. *)
Definition setattr (self : population) (name : string) (v : list R) : population :=
  Population (cls self) (_zlocal self) (Mpc2cm self)
    (GeV_per_sec_2_ergs_per_year self) (evolution self) (cosmology self)
    (dL1 self) (<[name := v]> (late_attrs self)).

Section Methods.

Context `{CosmologyProvider, Integrator, RandomSource}.

(** [quad(f, a, b)[0]], recorded in the world. *)
Definition quad_logged (f : R → R) (a b : R) : M R := fun w =>
  (Ok (quad f a b), World (quad_log w ++ [QuadCall f a b]) (drawn w)).

(** [np.random.rand()]. *)
Definition rand : M R := fun w =>
  (Ok (uniform (drawn w)), World (quad_log w) (S (drawn w))).

(** [np.random.rand(n)]. *)
Definition rand_n (n : Z) : M (list R) := fun w =>
  if Z.ltb n 0 then (Raise ValueError, w)
  else (Ok (map (fun i => uniform (drawn w + i)%nat) (seq 0 (Z.to_nat n))),
        World (quad_log w) (drawn w + Z.to_nat n)%nat).

(** [LuminosityDistance]. *)
Definition LuminosityDistance (self : population) (z : R) : R :=
  luminosity_distance z (cosmology self).

(** [__init__], which the subclass inherits. *)
Definition init (c : pop_class) (cosmo : gmap string R) (evol : R → R)
  : population :=
  let cosmo' := set_omega_k_0 cosmo in
  Population c 0.01 3.086e24 50526 evol cosmo'
    (luminosity_distance 1 cosmo') ∅.

(** [SourcePopulation.RedshiftDistribution]. *)
Definition RedshiftDistribution_base (self : population) (z : R) : R :=
  4 * PI * evolution self z * diff_comoving_volume z (cosmology self).

(** [self.RedshiftDistribution(z)], dispatched on the class of [self]. *)
Definition RedshiftDistribution (self : population) (z : R) : R :=
  match cls self with
  | SourcePopulation => RedshiftDistribution_base self z
  | TransientSourcePopulation =>
      RedshiftDistribution_base self z * 1 / (1 + z)
  end.

(** [RedshiftIntegral]. *)
Definition RedshiftIntegral (self : population) (zmax : R) : M R :=
  let integrand := fun z => RedshiftDistribution self z in
  quad_logged integrand 0 zmax.

(** [setup_redshift_cdf]; the result is [self] after the call. *)
Definition setup_redshift_cdf (self : population) (zmax zmin : R) (bins : Z)
  : result population :=
  step ← py_div zmax (IZR bins);
  redshift_bins ← arange zmin zmax step;
  let RedshiftPDF := map (RedshiftDistribution self) redshift_bins in
  let RedshiftCDF := cumsum RedshiftPDF in
  total ← last_item RedshiftCDF;
  let RedshiftCDF := map (fun c => c / total) RedshiftCDF in
  Ok (setattr (setattr self "redshift_bins" redshift_bins)
        "redshift_cdf" RedshiftCDF).

(** [sample_redshift]. *)
Definition sample_redshift (self : population) (N : Z) : M (ndvalue R) :=
  rand_cdf ← (if Z.eqb N 1 then x ← rand; mret (Scalar x)
              else xs ← rand_n N; mret (Array xs));
  redshif_cdf ← lift (getattr self "redshif_cdf");
  let bin_index := searchsorted redshif_cdf rand_cdf in
  redshift_bins ← lift (getattr self "redshift_bins");
  lift (getitem redshift_bins bin_index).

(** The body of [sample_redshift] with the name of the attribute that
    holds the cumulative table as a parameter; the source is its
    instance at [redshif_cdf] (lemma [sample_redshift_reading_eq]). *)
Definition sample_redshift_reading (cdf_attr : string)
    (self : population) (N : Z) : M (ndvalue R) :=
  rand_cdf ← (if Z.eqb N 1 then x ← rand; mret (Scalar x)
              else xs ← rand_n N; mret (Array xs));
  cdf ← lift (getattr self cdf_attr);
  let bin_index := searchsorted cdf rand_cdf in
  redshift_bins ← lift (getattr self "redshift_bins");
  lift (getitem redshift_bins bin_index).

(** [Nsources]. *)
Definition Nsources (self : population) (density zmax : R) : M R :=
  let vlocal := comoving_volume (_zlocal self) (cosmology self) in
  local ← RedshiftIntegral self (_zlocal self);
  horizon ← RedshiftIntegral self zmax;
  ratio ← lift (py_div local horizon);
  mret (density * vlocal / ratio).

(** The integrand of [Flux2Lumi] and [Lumi2Flux]. *)
Definition flux_integrand (index E0 : R) : R → R :=
  fun E => E * fpow (E / E0) (- Rabs index).

(** [Flux2Lumi]. *)
Definition Flux2Lumi (self : population) (fluxnorm index emin emax E0 : R)
  : M R :=
  flux_integral ← quad_logged (flux_integrand index E0) emin emax;
  scaled ← lift (py_div fluxnorm (sq E0));
  mret (scaled * flux_integral * GeV_per_sec_2_ergs_per_year self
        * 4 * PI * sq (dL1 self * Mpc2cm self)).

(** [Lumi2Flux]. *)
Definition Lumi2Flux (self : population) (luminosity index emin emax E0 : R)
  : M R :=
  flux_integral ← quad_logged (flux_integrand index E0) emin emax;
  mret (luminosity / 4 / PI / sq (dL1 self * Mpc2cm self)
        / GeV_per_sec_2_ergs_per_year self / flux_integral * sq E0).

(** The integrand of the denominator of [StandardCandleSources]; [shift]
    is 2 in [SourcePopulation] and 3 in [TransientSourcePopulation]. *)
Definition candle_integrand (self : population) (index shift norm : R)
  : R → R :=
  fun z => fpow (1 + z) (- Rabs index + shift)
           / sq (LuminosityDistance self z)
           * RedshiftDistribution self z / norm.

(** [SourcePopulation.StandardCandleSources]. *)
Definition StandardCandleSources_base (self : population)
    (fluxnorm density zmax index : R) : M R :=
  norm ← RedshiftIntegral self zmax;
  Ntotal ← Nsources self density zmax;
  let all_sky_flux := 4 * PI * fluxnorm in
  denominator ← quad_logged (candle_integrand self index 2 norm) 0 10;
  mret (all_sky_flux / Ntotal / sq (dL1 self) / denominator).

(** [TransientSourcePopulation.StandardCandleSources]. *)
Definition StandardCandleSources_transient (self : population)
    (fluxnorm density zmax index : R) : M R :=
  norm ← RedshiftIntegral self zmax;
  Ntotal ← Nsources self density zmax;
  let yr2sec := 86400 * 365 in
  let all_sky_flux := 4 * PI * fluxnorm * yr2sec in
  denominator ← quad_logged (candle_integrand self index 3 norm) 0 10;
  mret (all_sky_flux / Ntotal / sq (dL1 self) / denominator).

(** [self.StandardCandleSources(...)], dispatched on the class of [self]. *)
Definition StandardCandleSources (self : population)
    (fluxnorm density zmax index : R) : M R :=
  match cls self with
  | SourcePopulation =>
      StandardCandleSources_base self fluxnorm density zmax index
  | TransientSourcePopulation =>
      StandardCandleSources_transient self fluxnorm density zmax index
  end.

End Methods.

(** The function an instance of class [c] computes when it is called;
    0 stands for a call that raises, which on the redshifts 0 to 10 only
    the abstract base does. *)
Definition law (c : Evol.class) (z : R) : R :=
  match Evol.evaluate (Evol.Instance c) z with
  | Ok v => v
  | Raise _ => 0
  end.

(** The defaults of [setup_redshift_cdf], [Flux2Lumi] and [Lumi2Flux]. *)
Definition default_zmin : R := 0.0005.
Definition default_bins : Z := 10000.
Definition default_E0 : R := 1e5.

(** The shift of the spectral exponent in the denominator of
    [StandardCandleSources]. *)
Definition exponent_shift (c : pop_class) : R :=
  match c with
  | SourcePopulation => 2
  | TransientSourcePopulation => 3
  end.

(** The all-sky flux (fluence, for a transient population) of
    [StandardCandleSources]. *)
Definition all_sky (c : pop_class) (fluxnorm : R) : R :=
  match c with
  | SourcePopulation => 4 * PI * fluxnorm
  | TransientSourcePopulation => 4 * PI * fluxnorm * (86400 * 365)
  end.

(** The edges [setup_redshift_cdf] binds to [redshift_bins] when
    [arange] returns. *)
Definition edges_of (zmax zmin : R) (bins : Z) : list R :=
  let step := zmax / IZR bins in
  map (fun i => zmin + INR i * step)
    (seq 0 (Z.to_nat (Zceil ((zmax - zmin) / step)))).

(** Every float of a value satisfies [P]. *)
Definition all_values (P : R → Prop) (v : ndvalue R) : Prop :=
  match v with
  | Scalar x => P x
  | Array xs => Forall P xs
  end.

(** The number of edges bound to [redshift_bins] once
    [setup_redshift_cdf] has returned. *)
Definition edge_count (r : result population) : option Z :=
  match r with
  | Ok self =>
      match getattr self "redshift_bins" with
      | Ok edges => Some (Z.of_nat (length edges))
      | Raise _ => None
      end
  | Raise _ => None
  end.

(** ** Concrete collaborators

    Simple collaborators on which the module can be evaluated: the
    Hubble-law universe (distances in units of the Hubble distance, valid
    at low redshift), Simpson's rule, and a constant generator. *)

Definition hubble_law : CosmologyProvider := {|
  set_omega_k_0 := fun c =>
    match c !! "omega_k_0" with
    | Some _ => c
    | None =>
        <["omega_k_0" := 1 - default 0 (c !! "omega_M_0")
                           - default 0 (c !! "omega_lambda_0")]> c
    end;
  luminosity_distance := fun z _ => (1 + z) * z;
  comoving_volume := fun z _ => 4 * PI / 3 * (z * z * z);
  diff_comoving_volume := fun z _ => z * z;
|}.

Definition simpson : Integrator := {|
  quad := fun f a b => (b - a) / 6 * (f a + 4 * f ((a + b) / 2) + f b);
|}.

Definition constant_source (u : R) : RandomSource := {|
  uniform := fun _ => u;
|}.

Definition midpoint_source : RandomSource := constant_source 0.5.

(** A world in which nothing has happened yet. *)
Definition fresh : world := World [] 0.

(** A population on the module-level cosmology with [NoEvolution], in the
    Hubble-law universe. *)
Definition reference_population (c : pop_class) : population :=
  @init hubble_law c module_cosmology (law Evol.NoEvolution).

(** The midpoint rule, an integrator that never evaluates an end point. *)
Definition midpoint_rule : Integrator := {|
  quad := fun f a b => (b - a) * f ((a + b) / 2);
|}.

(** ** The life of a population *)

Section Lifecycle.

Context `{CosmologyProvider}.

(** The populations a program can hold: one built by [__init__], and
    what any number of calls of [setup_redshift_cdf] that return make of
    it ([setup_redshift_cdf] is the only method that assigns to
    [self]). *)
Inductive built_from (self0 : population) : population → Prop :=
| built_init : built_from self0 self0
| built_setup (self self' : population) (zmax zmin : R) (bins : Z) :
    built_from self0 self →
    setup_redshift_cdf self zmax zmin bins = Ok self' →
    built_from self0 self'.

End Lifecycle.

(** The integrand of the denominator of [StandardCandleSources] before
    its division by [norm]. *)
Definition candle_kernel `{CosmologyProvider}
    (self : population) (index shift : R) : R → R :=
  fun z => fpow (1 + z) (- Rabs index + shift)
           / sq (LuminosityDistance self z)
           * RedshiftDistribution self z.

(** ** Binary floating point

    The table of [setup_redshift_cdf] is computed in IEEE 754 binary64,
    and both the number of its edges and its last edge depend on the
    rounding.  A [FloatUnit] is the rounding of a float format: [rnd x]
    is the float an operation returns when its exact result is [x],
    [eps] the unit roundoff, [tiny] the least positive normal float and
    [huge] the largest finite one.  [FloatLaws] is what the analysis
    relies on; round-to-nearest binary64 satisfies it with
    [eps = 2^-53], [tiny = 2^-1022] and [huge = (2 - 2^-52) * 2^1023].
    [rnd] stands for the operation only as long as the exact result
    lies within [[-huge, huge]]: beyond, the float is an infinity. *)
Class FloatUnit : Type := {
  rnd : R → R;
  eps : R;
  tiny : R;
  huge : R;
}.

Class FloatLaws (U : FloatUnit) : Prop := {
  rnd_monotone : ∀ x y, x <= y → rnd x <= rnd y;
  rnd_idempotent : ∀ x, rnd (rnd x) = rnd x;
  rnd_integer : ∀ k : Z,
    (Z.abs k <= 9007199254740992)%Z → rnd (IZR k) = IZR k;
  rnd_relative : ∀ x,
    tiny <= Rabs x <= huge → Rabs (rnd x - x) <= eps * Rabs x;
  eps_bound : 0 <= eps <= / 9007199254740992;
  tiny_bound : 0 < tiny <= / 2;
  huge_bound : 9007199254740992 <= huge;
}.

(** Exact arithmetic on a nominal range: the unit at which the rounded
    definitions below are the real-number ones above. *)
Definition exact_unit : FloatUnit := {|
  rnd := fun x => x;
  eps := 0;
  tiny := 1e-30;
  huge := 1e30;
|}.

Section Rounded.

Context `{FloatUnit, CosmologyProvider}.

(** Division of two Python floats. *)
Definition fl_div (x y : R) : result R :=
  if Req_dec_T y 0 then Raise ZeroDivisionError else Ok (rnd (x / y)).

(** Item [i] of the array [np.arange(start, stop, step)] fills: the
    first two are [start] and [next = start + step], the others
    [start + i*delta] for [delta = next - start]. *)
Definition arange_fl_item (start next delta : R) (i : nat) : R :=
  match i with
  | O => start
  | S O => next
  | _ => rnd (start + rnd (INR i * delta))
  end.

(** [np.arange(start, stop, step)] on floats: [ceil((stop - start)/step)]
    items, the quotient being the float one. *)
Definition arange_fl (start stop step : R) : result (list R) :=
  if Req_dec_T step 0 then Raise ZeroDivisionError
  else
    let n := Z.to_nat (Zceil (rnd (rnd (stop - start) / step))) in
    let next := rnd (start + step) in
    let delta := rnd (next - start) in
    Ok (map (arange_fl_item start next delta) (seq 0 n)).

(** The quantities of [np.arange(zmin, zmax, zmax/float(bins))]: the
    step, the number of edges, the second edge, the increment of the
    fill loop, and the edges. *)
Definition grid_step (zmax : R) (bins : Z) : R :=
  rnd (zmax / rnd (IZR bins)).

Definition grid_count (zmax zmin : R) (bins : Z) : Z :=
  Zceil (rnd (rnd (zmax - zmin) / grid_step zmax bins)).

Definition grid_next (zmax zmin : R) (bins : Z) : R :=
  rnd (zmin + grid_step zmax bins).

Definition grid_delta (zmax zmin : R) (bins : Z) : R :=
  rnd (grid_next zmax zmin bins - zmin).

Definition grid_edge (zmax zmin : R) (bins : Z) (i : nat) : R :=
  arange_fl_item zmin (grid_next zmax zmin bins) (grid_delta zmax zmin bins) i.

Definition edges_fl (zmax zmin : R) (bins : Z) : list R :=
  map (grid_edge zmax zmin bins)
    (seq 0 (Z.to_nat (grid_count zmax zmin bins))).

(** [np.cumsum]: the first sum is the first item, each other sum the
    rounded sum of its predecessor and its item. *)
Fixpoint cumsum_fl_from (acc : R) (xs : list R) : list R :=
  match xs with
  | [] => []
  | x :: xs' => rnd (acc + x) :: cumsum_fl_from (rnd (acc + x)) xs'
  end.

Definition cumsum_fl (xs : list R) : list R :=
  match xs with
  | [] => []
  | x :: xs' => x :: cumsum_fl_from x xs'
  end.

(** [SourcePopulation.RedshiftDistribution], operation by operation. *)
Definition RedshiftDistribution_base_fl (self : population) (z : R) : R :=
  rnd (rnd (rnd (4 * rnd PI) * evolution self z)
       * diff_comoving_volume z (cosmology self)).

(** [self.RedshiftDistribution(z)], operation by operation. *)
Definition RedshiftDistribution_fl (self : population) (z : R) : R :=
  match cls self with
  | SourcePopulation => RedshiftDistribution_base_fl self z
  | TransientSourcePopulation =>
      rnd (rnd (RedshiftDistribution_base_fl self z * 1) / rnd (1 + z))
  end.

(** [setup_redshift_cdf], operation by operation; the result is [self]
    after the call. *)
Definition setup_redshift_cdf_fl (self : population) (zmax zmin : R) (bins : Z)
  : result population :=
  step ← fl_div zmax (rnd (IZR bins));
  redshift_bins ← arange_fl zmin zmax step;
  let RedshiftPDF := map (RedshiftDistribution_fl self) redshift_bins in
  let RedshiftCDF := cumsum_fl RedshiftPDF in
  total ← last_item RedshiftCDF;
  let RedshiftCDF := map (fun c => rnd (c / total)) RedshiftCDF in
  Ok (setattr (setattr self "redshift_bins" redshift_bins)
        "redshift_cdf" RedshiftCDF).

End Rounded.

(** * Properties *)

(** ** Evolution laws *)

Module EvolFacts.
Import Evol.

Lemma resolve_init (c : class) : resolve c "__init__" = Some (Evolution, []).
Proof. destruct c; reflexivity. Qed.

Lemma resolve_parametrization (c : class) :
  resolve c "parametrization" = Some (c, ["self"; "x"]).
Proof. destruct c; reflexivity. Qed.

Lemma resolve_call (c : class) :
  resolve c "__call__" =
  Some (if decide (c = YukselEtAl2008StarFormationRate) then c else Evolution,
        ["self"; "z"]).
Proof. destruct c; reflexivity. Qed.

(** No class of the hierarchy can be instantiated: the only [__init__]
    takes no argument and is always given one. *)
Lemma instantiate_raises (c : class) :
  instantiate c = Raise (TypeError (wrong_arity 0 1)).
Proof. unfold instantiate. rewrite resolve_init. reflexivity. Qed.

Lemma evolutions_supported (name : string) :
  In name supported → ∃ c, evolutions !! name = Some c ∧ In c variants.
Proof.
  unfold supported, variants.
  intros [<-|[<-|[<-|[<-|[]]]]]; eexists; (split; [reflexivity|]);
    simpl; tauto.
Qed.

Lemma evolutions_unsupported (name : string) :
  ¬ In name supported → evolutions !! name = None.
Proof.
  intros Hn. unfold evolutions.
  repeat (rewrite lookup_insert_ne;
          [|intros <-; apply Hn; unfold supported; simpl; tauto]).
  apply lookup_empty.
Qed.

Lemma fpow_pos (x y : R) : 0 < fpow x y.
Proof. unfold fpow, Rpower. apply exp_pos. Qed.

(** The third test of [HopkinsBeacom2006StarFormationRate.parametrization]
    holds whenever the first two fail. *)
Lemma third_test (x : R) :
  ¬ x < 0.30963 → ¬ (x >= 0.30963 ∧ x < 0.73878) → x >= 0.73878.
Proof. intros H1 H2. destruct (Rlt_dec x 0.73878); lra. Qed.

Lemma prefix_app (s t : string) : String.prefix s (s +:+ t) = true.
Proof.
  induction s as [|a s IH]; simpl.
  - destruct t; reflexivity.
  - destruct (Ascii.ascii_dec a a); [exact IH | congruence].
Qed.

Lemma occurs_prefix (s hay : string) :
  String.prefix s hay = true → occurs s hay = true.
Proof.
  intros Hp. destruct hay; unfold occurs; fold occurs; rewrite Hp; reflexivity.
Qed.

Lemma occurs_app (p s t : string) : occurs s (p +:+ (s +:+ t)) = true.
Proof.
  induction p as [|a p IH].
  - change (occurs s (s +:+ t) = true). apply occurs_prefix, prefix_app.
  - change (occurs s (String a (p +:+ (s +:+ t))) = true). simpl.
    rewrite IH. apply orb_true_r.
Qed.

(** The value of each law, when its class could be instantiated. *)
Lemma evaluate_eq (c : class) (z : R) :
  evaluate (Instance c) z =
  if decide (c = YukselEtAl2008StarFormationRate)
  then parametrization_body c (1 + z)
  else parametrization_body c (log10 (1 + z)).
Proof.
  unfold evaluate. simpl. rewrite resolve_call.
  destruct c; simpl; unfold parametrization; simpl;
    rewrite resolve_parametrization; reflexivity.
Qed.

Example get_evolution_NoEvolution :
  get_evolution "NoEvolution" = Raise (TypeError (wrong_arity 0 1)).
Proof. reflexivity. Qed.

Example get_evolution_lowercase :
  get_evolution "noevolution"
  = Raise (NotImplementedError "Source evolution noevolution not implemented.").
Proof. reflexivity. Qed.

(** The abstract base has no law. *)
Example evaluate_Evolution (z : R) :
  evaluate (Instance Evolution) z = Raise (NotImplementedError "Abstract").
Proof. rewrite evaluate_eq. reflexivity. Qed.

End EvolFacts.

(** C1.  For every name of the supported set, [get_evolution name] raises
    [TypeError]: the class the name selects inherits the [__init__] of
    [Evolution], which takes no parameter and is given the new object.
    Hence [get_evolution] returns a law for no name at all. *)
Theorem get_evolution_supported_TypeError (name : string) :
  In name Evol.supported →
  (∃ c, Evol.evolutions !! name = Some c
        ∧ Evol.resolve c "__init__" = Some (Evol.Evolution, []))
  ∧ Evol.get_evolution name = Raise (TypeError (wrong_arity 0 1))
  ∧ ∀ other, is_ok (Evol.get_evolution other) = false.
Proof.
  intros Hin.
  destruct (EvolFacts.evolutions_supported name Hin) as (c & Hc & _).
  split; [|split].
  - exists c. split; [exact Hc | apply EvolFacts.resolve_init].
  - unfold Evol.get_evolution. rewrite Hc. apply EvolFacts.instantiate_raises.
  - intros other. unfold Evol.get_evolution.
    destruct (Evol.evolutions !! other) as [c'|]; [|reflexivity].
    rewrite EvolFacts.instantiate_raises. reflexivity.
Qed.

Lemma get_evolution_supported_TypeError_witness :
  Evol.get_evolution "HB2006SFR" = Raise (TypeError (wrong_arity 0 1)).
Proof.
  apply (get_evolution_supported_TypeError "HB2006SFR").
  unfold Evol.supported. simpl. tauto.
Defined.

(** C5, as stated, fails: for the unknown name [MD2014SFR] the error
    message names the requested identifier and none of the supported
    names. *)
Lemma get_evolution_unknown_message_counterexample :
  ¬ In "MD2014SFR" Evol.supported
  ∧ not_implemented_message (Evol.get_evolution "MD2014SFR")
    = Some "Source evolution MD2014SFR not implemented."
  ∧ existsb (fun s => Evol.occurs s "Source evolution MD2014SFR not implemented.")
      Evol.supported = false.
Proof.
  split; [|split].
  - unfold Evol.supported. simpl. intros [E|[E|[E|[E|[]]]]]; discriminate E.
  - reflexivity.
  - reflexivity.
Qed.

(** C5, amended.  For every name outside the supported set,
    [get_evolution] raises [NotImplementedError] before any class is
    instantiated, and the message is the requested name between
    ["Source evolution "] and [" not implemented."]: it names the
    requested identifier. *)
Theorem get_evolution_unknown_NotImplementedError (name : string) :
  ¬ In name Evol.supported →
  Evol.get_evolution name
  = Raise (NotImplementedError
             ("Source evolution " +:+ name +:+ " not implemented."))
  ∧ Evol.occurs name ("Source evolution " +:+ name +:+ " not implemented.")
    = true.
Proof.
  intros Hout. split.
  - unfold Evol.get_evolution.
    rewrite (EvolFacts.evolutions_unsupported name Hout). reflexivity.
  - apply EvolFacts.occurs_app.
Qed.

Lemma get_evolution_unknown_NotImplementedError_witness :
  Evol.get_evolution "MD2014SFR"
  = Raise (NotImplementedError "Source evolution MD2014SFR not implemented.").
Proof.
  apply (get_evolution_unknown_NotImplementedError "MD2014SFR").
  unfold Evol.supported. simpl. intros [E|[E|[E|[E|[]]]]]; discriminate E.
Defined.

(** C10.  For each of the four laws and every [z] in [[0,10]], the law
    returns a value that is not negative; [NoEvolution] returns 1 at
    every [z]. *)
Theorem evaluate_nonneg (c : Evol.class) (z : R) :
  In c Evol.variants →
  (0 <= z <= 10 → ∃ v, Evol.evaluate (Evol.Instance c) z = Ok v ∧ 0 <= v)
  ∧ (c = Evol.NoEvolution → Evol.evaluate (Evol.Instance c) z = Ok 1).
Proof.
  intros Hc. rewrite EvolFacts.evaluate_eq. split.
  - intros Hz. unfold Evol.variants in Hc. simpl in Hc.
    destruct Hc as [<-|[<-|[<-|[<-|[]]]]]; simpl.
    + exists 1. split; [reflexivity | lra].
    + destruct (Rlt_dec _ _); [|destruct (sumbool_and _ _ _ _ _ _)];
        eexists; (split; [reflexivity | apply Rlt_le, EvolFacts.fpow_pos]).
    + eexists. split; [reflexivity|].
      apply Rmult_le_pos; [lra | apply Rlt_le, EvolFacts.fpow_pos].
    + eexists. split; [reflexivity|].
      apply Rlt_le, Rdiv_lt_0_compat.
      * apply Rmult_lt_0_compat; [lra | apply EvolFacts.fpow_pos].
      * pose proof (EvolFacts.fpow_pos (fpow 10 (log10 (1 + z)) / 1.5) 6.1).
        lra.
  - intros ->. reflexivity.
Qed.

Lemma evaluate_nonneg_witness :
  (∃ v, Evol.evaluate (Evol.Instance Evol.CandelsClash2015SNRate) 2 = Ok v
        ∧ 0 <= v).
Proof.
  apply (evaluate_nonneg Evol.CandelsClash2015SNRate 2).
  - unfold Evol.variants. simpl. tauto.
  - lra.
Defined.

(** ** Arrays *)

Module ArrayFacts.

Lemma cumsum_from_length (acc : R) (xs : list R) :
  length (cumsum_from acc xs) = length xs.
Proof.
  revert acc. induction xs as [|x xs IH]; intros acc; simpl;
    [reflexivity | rewrite IH; reflexivity].
Qed.

(** Every partial sum of non-negative terms is at least the start. *)
Lemma cumsum_from_lower (acc : R) (xs : list R) :
  Forall (fun x => 0 <= x) xs →
  Forall (fun c => acc <= c) (cumsum_from acc xs).
Proof.
  intros Hpos. revert acc.
  induction Hpos as [|x xs Hx _ IH]; intros acc; simpl; constructor.
  - lra.
  - eapply Forall_impl; [apply IH|]. simpl. intros c Hc. lra.
Qed.

Lemma cumsum_from_sorted (acc : R) (xs : list R) :
  Forall (fun x => 0 <= x) xs →
  StronglySorted Rle (cumsum_from acc xs).
Proof.
  intros Hpos. revert acc.
  induction Hpos as [|x xs Hx Hxs IH]; intros acc; simpl; constructor.
  - apply IH.
  - apply cumsum_from_lower. exact Hxs.
Qed.

(** The last partial sum of positive terms is above the start. *)
Lemma cumsum_from_last_pos (acc : R) (xs : list R) (t : R) :
  Forall (fun x => 0 < x) xs →
  last (cumsum_from acc xs) = Some t →
  acc < t.
Proof.
  intros Hpos. revert acc.
  induction Hpos as [|x xs Hx Hxs IH]; intros acc; simpl; [discriminate|].
  destruct xs as [|y ys].
  - simpl. intros [= <-]. lra.
  - intros Hl. apply Rlt_trans with (acc + x); [lra|].
    apply IH. exact Hl.
Qed.

Lemma last_is_Some {A} (xs : list A) :
  (0 < length xs)%nat → ∃ x, last xs = Some x.
Proof.
  destruct (last xs) as [x|] eqn:E; [eauto|].
  apply last_None in E. subst xs. simpl. lia.
Qed.

Lemma last_map {A B} (f : A → B) (xs : list A) :
  last (map f xs) = f <$> last xs.
Proof.
  induction xs as [|x xs IH]; [reflexivity|].
  destruct xs as [|y ys]; [reflexivity|]. exact IH.
Qed.

Lemma StronglySorted_map_Rle (f : R → R) (xs : list R) :
  (∀ x y, x <= y → f x <= f y) →
  StronglySorted Rle xs → StronglySorted Rle (map f xs).
Proof.
  intros Hf Hs. induction Hs as [|x xs Hs IH Hx]; simpl; constructor.
  - exact IH.
  - apply List.Forall_forall. intros y Hy. apply in_map_iff in Hy.
    destruct Hy as (y0 & <- & Hy0). apply Hf.
    rewrite List.Forall_forall in Hx. apply Hx. exact Hy0.
Qed.

(** A strictly increasing function of the index gives a strictly
    increasing array. *)
Lemma StronglySorted_map_seq (f : nat → R) (a n : nat) :
  (∀ i j, (i < j)%nat → f i < f j) →
  StronglySorted Rlt (map f (seq a n)).
Proof.
  intros Hf. revert a. induction n as [|n IH]; intros a; simpl; constructor.
  - apply IH.
  - apply List.Forall_forall. intros y Hy. apply in_map_iff in Hy.
    destruct Hy as (j & <- & Hj). apply in_seq in Hj. apply Hf. lia.
Qed.

(** The number of edges [np.arange(zmin, zmax, zmax/bins)] returns. *)
Lemma arange_count (zmax zmin : R) (bins : Z) :
  0 < zmin < zmax → (0 < bins)%Z →
  let step := zmax / IZR bins in
  let n := Zceil ((zmax - zmin) / step) in
  0 < step
  ∧ (0 < n <= bins)%Z
  ∧ (n = bins ↔ zmin < step)
  ∧ (IZR n - 1) * step < zmax - zmin.
Proof.
  intros Hz Hb step n.
  assert (Hbr : 0 < IZR bins) by (apply IZR_lt; exact Hb).
  assert (Hs : 0 < step) by (apply Rdiv_lt_0_compat; lra).
  assert (Hzs : zmax = step * IZR bins) by (unfold step; field; lra).
  set (x := (zmax - zmin) / step) in *.
  assert (Hx : x * step = zmax - zmin) by (unfold x; field; lra).
  pose proof (Zceil_bound x) as [Hlo Hhi]. fold n in Hlo, Hhi.
  assert (Hxpos : 0 < x) by (apply Rdiv_lt_0_compat; lra).
  assert (Hxb : x < IZR bins) by nra.
  split; [exact Hs|]. split; [|split].
  - split.
    + apply lt_IZR. lra.
    + apply Z.lt_succ_r, lt_IZR. rewrite succ_IZR. lra.
  - split.
    + intros E. rewrite E in Hlo. nra.
    + intros Hlt. apply Zceil_eq. split; [nra | lra].
  - nra.
Qed.

(** [searchsorted1] returns the first index whose entry is not below
    the value: the entries before it are below it. *)
Lemma searchsorted1_spec (a : list R) (v : R) :
  (∀ i x, (i < searchsorted1 a v)%nat → a !! i = Some x → x < v)
  ∧ (∀ x, a !! searchsorted1 a v = Some x → v <= x).
Proof.
  induction a as [|y a [IHlo IHhi]]; simpl.
  - split; [intros i x Hi; lia | intros x [=]].
  - destruct (Rlt_dec y v) as [Hlt|Hge]; split.
    + intros [|i] x Hi; simpl; [intros [= <-]; exact Hlt|].
      apply IHlo. lia.
    + simpl. exact IHhi.
    + intros i x Hi. lia.
    + simpl. intros x [= <-]. lra.
Qed.

(** A value that the last entry bounds is located inside the array. *)
Lemma searchsorted1_lt (a : list R) (v t : R) :
  last a = Some t → v <= t → (searchsorted1 a v < length a)%nat.
Proof.
  intros Hl Hv. induction a as [|y a IH]; [discriminate|]. simpl.
  destruct (Rlt_dec y v) as [Hlt|_]; [|lia].
  destruct a as [|y' a'].
  - simpl in Hl. injection Hl as ->. lra.
  - apply -> Nat.succ_lt_mono. apply IH. exact Hl.
Qed.

Lemma getitem1_elem (a : list R) (i : nat) (P : R → Prop) :
  Forall P a → (i < length a)%nat → ∃ x, getitem1 a i = Ok x ∧ P x.
Proof.
  intros Ha Hi. unfold getitem1.
  destruct (lookup_lt_is_Some_2 a i Hi) as [x Hx]. rewrite Hx.
  exists x. split; [reflexivity|].
  rewrite Forall_forall in Ha. apply Ha.
  apply list_elem_of_lookup. eauto.
Qed.

Lemma getitem_elem (a : list R) (ks : list nat) (P : R → Prop) :
  Forall P a → Forall (fun k => (k < length a)%nat) ks →
  ∃ xs, mapM (getitem1 a) ks = Ok xs ∧ Forall P xs
        ∧ length xs = length ks.
Proof.
  intros Ha Hks. induction Hks as [|k ks Hk _ (xs & Hxs & HP & Hlen)].
  - exists []. repeat split. constructor.
  - destruct (getitem1_elem a k P Ha Hk) as (x & Hx & HPx).
    exists (x :: xs). cbn [mapM]. rewrite Hx. cbn [mbind result_bind].
    rewrite Hxs. cbn [mbind result_bind mret result_ret].
    repeat split; [constructor; assumption | simpl; congruence].
Qed.

Example arange_quarters : arange 0 1 0.25 = Ok [0; 0.25; 0.5; 0.75].
Proof.
  unfold arange. destruct (Req_dec_T 0.25 0) as [E|_]; [lra|].
  rewrite (Zceil_eq 4) by lra. simpl.
  repeat (f_equal; try lra).
Qed.

Example cumsum_123 : cumsum [1; 2; 3] = [1; 3; 6].
Proof. unfold cumsum. simpl. repeat (f_equal; try lra). Qed.

(** A draw equal to an entry is located at that entry. *)
Example searchsorted1_tie : searchsorted1 [0.2; 0.5; 1] 0.5 = 1%nat.
Proof.
  simpl. destruct (Rlt_dec 0.2 0.5); [|lra].
  destruct (Rlt_dec 0.5 0.5); [lra | reflexivity].
Qed.

End ArrayFacts.

(** ** Source populations *)

(** Unfolds the operations of [M] so that a run can be computed. *)
Ltac run_M :=
  unfold quad_logged, rand, rand_n, lift, py_div,
    mbind, M_bind, mret, M_ret.

Section PopulationFacts.

Context `{CosmologyProvider, Integrator, RandomSource}.

(** C9.  For every redshift [z >= 0], the redshift distribution of a
    [TransientSourcePopulation] is that of the [SourcePopulation] built
    from the same cosmology and evolution, multiplied by [1/(1+z)]. *)
Theorem transient_RedshiftDistribution
    (cosmo : gmap string R) (evol : R → R) (z : R) :
  0 <= z →
  RedshiftDistribution (init TransientSourcePopulation cosmo evol) z
  = RedshiftDistribution (init SourcePopulation cosmo evol) z * (1 / (1 + z)).
Proof.
  intros Hz. unfold RedshiftDistribution, RedshiftDistribution_base. simpl.
  field. lra.
Qed.

(** C7.  In [StandardCandleSources] of both classes and for every
    [zmax], the integral the result is divided by is taken from 0 to 10.
    Whenever the redshift integral to [zmax] is not zero the call
    returns: it has asked for the three redshift integrals (to [zmax], to
    [_zlocal] and to [zmax]) and then for one integral with bounds 0 and
    10, whatever [zmax] is, and the value of that integral divides the
    result.  When the redshift integral to [zmax] is zero, and only then,
    the call raises [ZeroDivisionError] in [Nsources], before that
    integral is asked for. *)
Theorem StandardCandleSources_denominator_bounds
    (self : population) (fluxnorm density zmax index : R) (w : world) :
  let rd := fun z => RedshiftDistribution self z in
  let norm := quad rd 0 zmax in
  let Ntotal :=
    density * comoving_volume (_zlocal self) (cosmology self)
    / (quad rd 0 (_zlocal self) / norm) in
  let integrals :=
    [QuadCall rd 0 zmax; QuadCall rd 0 (_zlocal self); QuadCall rd 0 zmax] in
  let denominator :=
    QuadCall (candle_integrand self index (exponent_shift (cls self)) norm)
      0 10 in
  (norm <> 0 →
   StandardCandleSources self fluxnorm density zmax index w
   = (Ok (all_sky (cls self) fluxnorm / Ntotal / sq (dL1 self)
          / quad (integrand denominator) (lower denominator)
              (upper denominator)),
      World (quad_log w ++ integrals ++ [denominator]) (drawn w)))
  ∧ (norm = 0 →
     StandardCandleSources self fluxnorm density zmax index w
     = (Raise ZeroDivisionError,
        World (quad_log w ++ integrals) (drawn w))).
Proof.
  unfold StandardCandleSources, StandardCandleSources_base,
    StandardCandleSources_transient, Nsources, RedshiftIntegral,
    exponent_shift, all_sky.
  split; intros Hnorm;
    destruct (cls self); simpl; run_M; simpl;
    destruct (Req_dec_T _ 0) as [E|E]; try contradiction; simpl;
    rewrite <- ?app_assoc; reflexivity.
Qed.

(** The constants [__init__] binds. *)
Lemma init_constants (c : pop_class) (cosmo : gmap string R) (evol : R → R) :
  _zlocal (init c cosmo evol) = 0.01
  ∧ Mpc2cm (init c cosmo evol) = 3.086e24
  ∧ GeV_per_sec_2_ergs_per_year (init c cosmo evol) = 50526.
Proof. repeat split; reflexivity. Qed.

(** C6.  [Lumi2Flux] inverts [Flux2Lumi]: on a population whose [dL1] is
    not zero, with [E0] not zero and a flux integral that is not zero,
    [Flux2Lumi] returns a luminosity from which [Lumi2Flux], with the
    same index and energy range, returns the flux normalisation it was
    given; the relative error is therefore within 1e-9. *)
Theorem Lumi2Flux_Flux2Lumi
    (c : pop_class) (cosmo : gmap string R) (evol : R → R)
    (F index emin emax E0 : R) (w : world) :
  let self := init c cosmo evol in
  E0 <> 0 →
  dL1 self <> 0 →
  quad (flux_integrand index E0) emin emax <> 0 →
  ∃ L w1 F' w2,
    Flux2Lumi self F index emin emax E0 w = (Ok L, w1)
    ∧ Lumi2Flux self L index emin emax E0 w1 = (Ok F', w2)
    ∧ F' = F
    ∧ Rabs (F' - F) <= 1e-9 * Rabs F.
Proof.
  intros self HE0 HdL Hint.
  assert (HsqE0 : sq E0 <> 0) by (unfold sq; nra).
  unfold Flux2Lumi, Lumi2Flux. run_M.
  destruct (Req_dec_T (sq E0) 0) as [E|_]; [contradiction|].
  do 4 eexists. split; [reflexivity|]. split; [reflexivity|].
  assert (Heq : ∀ a b : R, a = b → a = b ∧ Rabs (a - b) <= 1e-9 * Rabs b).
  { intros a b ->. split; [reflexivity|].
    replace (b - b) with 0 by ring. rewrite Rabs_R0.
    pose proof (Rabs_pos b). lra. }
  apply Heq.
  destruct (init_constants c cosmo evol) as (_ & HMpc & HGeV).
  fold self in HMpc, HGeV. rewrite HMpc, HGeV.
  unfold sq in *. field. pose proof PI_neq0.
  repeat split; try lra; assumption.
Qed.

(** The value of [Nsources] when the integral to the horizon is not
    zero; the world only gains the two integrations. *)
Lemma Nsources_run (self : population) (density zmax : R) (w : world) :
  let rd := fun z => RedshiftDistribution self z in
  quad rd 0 zmax <> 0 →
  Nsources self density zmax w
  = (Ok (density * comoving_volume (_zlocal self) (cosmology self)
         / (quad rd 0 (_zlocal self) / quad rd 0 zmax)),
     World (quad_log w
            ++ [QuadCall rd 0 (_zlocal self); QuadCall rd 0 zmax])
       (drawn w)).
Proof.
  intros rd Hne.
  unfold Nsources, RedshiftIntegral. run_M. simpl.
  fold rd. destruct (Req_dec_T (quad rd 0 zmax) 0) as [E|_]; [contradiction|].
  rewrite <- app_assoc. reflexivity.
Qed.

(** With an integrator that is exact on the redshift distribution (its
    values from 0 are the differences of an antiderivative [F]), the
    redshift integral is positive and strictly increasing wherever the
    distribution is positive: the mean value theorem on [F]. *)
Lemma RedshiftIntegral_increasing (self : population) (F : R → R) :
  let rd := fun z => RedshiftDistribution self z in
  (∀ z, 0 < z → 0 < rd z) →
  (∀ z, 0 <= z → derivable_pt_lim F z (rd z)) →
  (∀ z, 0 <= z → quad rd 0 z = F z - F 0) →
  ∀ z1 z2, 0 <= z1 < z2 → quad rd 0 z1 < quad rd 0 z2.
Proof.
  intros rd Hpos HF Hquad z1 z2 [Hz1 Hlt].
  rewrite !Hquad by lra.
  destruct (MVT_cor2 F rd z1 z2 Hlt) as (c & Hc & Hcin).
  { intros x Hx. apply HF. lra. }
  assert (0 < rd c * (z2 - z1))
    by (apply Rmult_lt_0_compat; [apply Hpos|]; lra).
  lra.
Qed.

(** The redshift distribution of either class is positive at [z > 0]
    when the evolution and the differential comoving volume are. *)
Lemma RedshiftDistribution_pos (self : population) (z : R) :
  0 < z →
  0 < evolution self z →
  0 < diff_comoving_volume z (cosmology self) →
  0 < RedshiftDistribution self z.
Proof.
  intros Hz He Hv.
  assert (Hbase : 0 < RedshiftDistribution_base self z).
  { unfold RedshiftDistribution_base. pose proof PI_RGT_0.
    apply Rmult_lt_0_compat; [|exact Hv].
    apply Rmult_lt_0_compat; [lra | exact He]. }
  unfold RedshiftDistribution. destruct (cls self); [exact Hbase|].
  apply Rdiv_lt_0_compat; lra.
Qed.

(** C8.  [Nsources density zmax] is
    [density * V_c(0.01) / (RedshiftIntegral 0.01 / RedshiftIntegral zmax)]
    whenever the integral to [zmax] is not zero.  Let the collaborators
    keep their contracts: the comoving volume at 0.01 and the
    differential comoving volume at every [z > 0] are positive, and the
    integrator is exact on the redshift distribution (its values are the
    differences of an antiderivative).  Then on a population whose
    evolution is positive ([NoEvolution] is 1), for every positive density
    (1e-7 among them) and every horizon [zmax > 0] (0.1 among them), the
    result is a positive real, and it is strictly increasing in [zmax]. *)
Theorem Nsources_formula_positive_increasing
    (self : population) (density : R) :
  let rd := fun z => RedshiftDistribution self z in
  let RI := fun zmax => quad rd 0 zmax in
  let vlocal := comoving_volume 0.01 (cosmology self) in
  let N := fun zmax => density * vlocal / (RI 0.01 / RI zmax) in
  _zlocal self = 0.01 →
  (∀ zmax w, RI zmax <> 0 → fst (Nsources self density zmax w) = Ok (N zmax))
  ∧ (0 < density →
     (∀ z, 0 < z → 0 < evolution self z) →
     0 < vlocal →
     (∀ z, 0 < z → 0 < diff_comoving_volume z (cosmology self)) →
     (∃ F, (∀ z, 0 <= z → derivable_pt_lim F z (rd z))
           ∧ ∀ z, 0 <= z → RI z = F z - F 0) →
     (∀ zmax w, 0 < zmax →
        fst (Nsources self density zmax w) = Ok (N zmax) ∧ 0 < N zmax)
     ∧ (∀ z1 z2 w1 w2, 0 < z1 < z2 →
          ∃ n1 n2,
            fst (Nsources self density z1 w1) = Ok n1
            ∧ fst (Nsources self density z2 w2) = Ok n2
            ∧ n1 < n2)).
Proof.
  intros rd RI vlocal N Hz.
  assert (Hrun : ∀ zmax w, RI zmax <> 0 →
                 fst (Nsources self density zmax w) = Ok (N zmax)).
  { intros zmax w Hne. rewrite Nsources_run by exact Hne.
    simpl. rewrite Hz. reflexivity. }
  split; [exact Hrun|].
  intros Hd Hevol Hv Hdcv (F & HF & Hquad).
  assert (Hrd : ∀ z, 0 < z → 0 < rd z).
  { intros z Hzp. apply RedshiftDistribution_pos;
      [exact Hzp | apply Hevol; exact Hzp | apply Hdcv; exact Hzp]. }
  assert (Hinc : ∀ z1 z2, 0 <= z1 < z2 → RI z1 < RI z2)
    by exact (RedshiftIntegral_increasing self F Hrd HF Hquad).
  assert (Hpos : ∀ z, 0 < z → 0 < RI z).
  { intros z Hzp. specialize (Hinc 0 z ltac:(lra)).
    rewrite (Hquad 0) in Hinc by lra. lra. }
  assert (Hloc : 0 < RI 0.01) by (apply Hpos; lra).
  assert (HN : ∀ z, 0 < z → N z = density * vlocal / RI 0.01 * RI z).
  { intros z Hzp. specialize (Hpos z Hzp). unfold N. field. lra. }
  assert (Hk : 0 < density * vlocal / RI 0.01).
  { apply Rdiv_lt_0_compat; [apply Rmult_lt_0_compat|]; assumption. }
  split.
  - intros zmax w Hzp. specialize (Hpos zmax Hzp) as Hp. split.
    + apply Hrun. lra.
    + rewrite HN by exact Hzp. apply Rmult_lt_0_compat; assumption.
  - intros z1 z2 w1 w2 Hlt. exists (N z1), (N z2).
    pose proof (Hpos z1 ltac:(lra)). pose proof (Hpos z2 ltac:(lra)).
    split; [apply Hrun; lra|]. split; [apply Hrun; lra|].
    rewrite !HN by lra. apply Rmult_lt_compat_l; [exact Hk|].
    apply Hinc. lra.
Qed.

(** [setup_redshift_cdf] returns, and binds the two attributes of the
    table, whenever the horizon is above a positive [zmin] and [bins] is
    positive. *)
Lemma setup_redshift_cdf_run (self : population) (zmax zmin : R) (bins : Z) :
  0 < zmin < zmax → (0 < bins)%Z →
  let edges := edges_of zmax zmin bins in
  let sums := cumsum (map (RedshiftDistribution self) edges) in
  ∃ total,
    last sums = Some total
    ∧ setup_redshift_cdf self zmax zmin bins
      = Ok (setattr (setattr self "redshift_bins" edges)
              "redshift_cdf" (map (fun c => c / total) sums)).
Proof.
  intros Hz Hb edges sums.
  destruct (ArrayFacts.arange_count zmax zmin bins Hz Hb)
    as (Hs & [Hn _] & _ & _).
  assert (Hlen : (0 < length sums)%nat).
  { unfold sums, cumsum, edges, edges_of.
    rewrite ArrayFacts.cumsum_from_length, !length_map, length_seq. lia. }
  destruct (ArrayFacts.last_is_Some sums Hlen) as [total Ht].
  exists total. split; [exact Ht|].
  unfold setup_redshift_cdf, py_div, arange.
  destruct (Req_dec_T (IZR bins) 0) as [E|_].
  { apply eq_IZR in E. lia. }
  cbn [mbind result_bind].
  destruct (Req_dec_T (zmax / IZR bins) 0) as [E|_]; [lra|].
  cbn [mbind result_bind]. fold (edges_of zmax zmin bins). fold edges.
  fold sums. unfold last_item. rewrite Ht. reflexivity.
Qed.

(** The edges are evenly spaced from [zmin], stay below [zmax] and
    increase strictly. *)
Lemma edges_of_spec (zmax zmin : R) (bins : Z) :
  0 < zmin < zmax → (0 < bins)%Z →
  let edges := edges_of zmax zmin bins in
  Z.of_nat (length edges) = Zceil ((zmax - zmin) / (zmax / IZR bins))
  ∧ head edges = Some zmin
  ∧ Forall (fun z => zmin <= z < zmax) edges
  ∧ StronglySorted Rlt edges.
Proof.
  intros Hz Hb edges.
  destruct (ArrayFacts.arange_count zmax zmin bins Hz Hb)
    as (Hs & [Hn _] & _ & Hup).
  unfold edges, edges_of.
  set (step := zmax / IZR bins) in *.
  set (n := Zceil ((zmax - zmin) / step)) in *.
  split; [|split; [|split]].
  - rewrite length_map, length_seq. lia.
  - destruct (Z.to_nat n) as [|k] eqn:E; [lia|]. simpl. f_equal. lra.
  - apply List.Forall_forall. intros z Hin. apply in_map_iff in Hin.
    destruct Hin as (i & <- & Hi). apply in_seq in Hi.
    pose proof (pos_INR i) as Hi0.
    assert (Hi1 : INR i <= IZR n - 1).
    { rewrite INR_IZR_INZ, <- minus_IZR. apply IZR_le. lia. }
    split; nra.
  - apply ArrayFacts.StronglySorted_map_seq. intros i j Hij.
    apply lt_INR in Hij. nra.
Qed.

(** The rescaled running sums of positive values do not decrease and end
    at 1. *)
Lemma rescaled_cumsum_spec (pdf : list R) (total : R) :
  Forall (fun x => 0 < x) pdf →
  last (cumsum pdf) = Some total →
  let cdf := map (fun c => c / total) (cumsum pdf) in
  length cdf = length pdf
  ∧ StronglySorted Rle cdf
  ∧ last cdf = Some 1.
Proof.
  intros Hpos Ht cdf.
  assert (Htot : 0 < total)
    by (eapply ArrayFacts.cumsum_from_last_pos; eassumption).
  split; [|split].
  - unfold cdf, cumsum. rewrite length_map. apply ArrayFacts.cumsum_from_length.
  - apply ArrayFacts.StronglySorted_map_Rle.
    + intros x y Hxy. apply Rmult_le_compat_r; [|exact Hxy].
      apply Rlt_le, Rinv_0_lt_compat. exact Htot.
    + apply ArrayFacts.cumsum_from_sorted.
      eapply Forall_impl; [exact Hpos|]. simpl. intros x Hx. lra.
  - unfold cdf. rewrite ArrayFacts.last_map, Ht. simpl. f_equal.
    field. lra.
Qed.

Lemma getattr_setattr (self : population) (name : string) (v : list R) :
  getattr (setattr self name v) name = Ok v.
Proof. unfold getattr, setattr. simpl. rewrite lookup_insert_eq. reflexivity. Qed.

Lemma getattr_setattr_ne (self : population) (name other : string) (v : list R) :
  name <> other →
  getattr (setattr self name v) other = getattr self other.
Proof.
  intros Hne. unfold getattr, setattr. simpl.
  rewrite lookup_insert_ne by exact Hne. reflexivity.
Qed.

(** [sample_redshift] reads the attribute [redshif_cdf]; on an object
    that lacks it the call raises [AttributeError] once the variates are
    drawn, and a negative count is refused before that. *)
Lemma sample_redshift_missing (self : population) (N : Z) (w : world) :
  late_attrs self !! "redshif_cdf" = None →
  is_ok (fst (sample_redshift self N w)) = false
  ∧ ((0 <= N)%Z →
     fst (sample_redshift self N w) = Raise (AttributeError "redshif_cdf")).
Proof.
  intros Hmiss.
  unfold sample_redshift, getattr. run_M.
  rewrite Hmiss.
  destruct (Z.eqb N 1); [split; reflexivity|].
  destruct (Z.ltb_spec N 0); split; try reflexivity. lia.
Qed.

(** [setup_redshift_cdf] binds [redshift_bins] and [redshift_cdf], and no
    other attribute. *)
Lemma setup_redshift_cdf_attrs
    (self self' : population) (zmax zmin : R) (bins : Z) (name : string) :
  setup_redshift_cdf self zmax zmin bins = Ok self' →
  name <> "redshift_bins" → name <> "redshift_cdf" →
  late_attrs self' !! name = late_attrs self !! name.
Proof.
  unfold setup_redshift_cdf. intros Hrun Hn1 Hn2.
  destruct (py_div zmax (IZR bins)) as [step|]; [|discriminate].
  cbn [mbind result_bind] in Hrun.
  destruct (arange zmin zmax step) as [edges|]; [|discriminate].
  cbn [mbind result_bind] in Hrun.
  destruct (last_item _) as [total|]; [|discriminate].
  cbn [mbind result_bind] in Hrun. injection Hrun as <-.
  unfold setattr. simpl. rewrite !lookup_insert_ne by congruence.
  reflexivity.
Qed.

(** C3.  On a population on which [setup_redshift_cdf] has never been
    called, [sample_redshift] fails: it raises [AttributeError] for the
    attribute of the table it reads. *)
Theorem sample_redshift_before_setup
    (c : pop_class) (cosmo : gmap string R) (evol : R → R) (N : Z) (w : world) :
  (0 <= N)%Z →
  fst (sample_redshift (init c cosmo evol) N w)
  = Raise (AttributeError "redshif_cdf").
Proof.
  intros HN. apply sample_redshift_missing; [|exact HN].
  unfold init. simpl. apply lookup_empty.
Qed.

(** After [setup_redshift_cdf] has returned on a newly built population,
    [sample_redshift] still raises [AttributeError]: it reads
    [redshif_cdf], and the table is bound to [redshift_cdf]. *)
Lemma sample_redshift_after_setup
    (c : pop_class) (cosmo : gmap string R) (evol : R → R)
    (zmax zmin : R) (bins : Z) (self' : population) (N : Z) (w : world) :
  setup_redshift_cdf (init c cosmo evol) zmax zmin bins = Ok self' →
  (0 <= N)%Z →
  fst (sample_redshift self' N w) = Raise (AttributeError "redshif_cdf").
Proof.
  intros Hrun HN. apply sample_redshift_missing; [|exact HN].
  rewrite (setup_redshift_cdf_attrs _ _ _ _ _ "redshif_cdf" Hrun)
    by discriminate.
  unfold init. simpl. apply lookup_empty.
Qed.

Lemma sample_redshift_reading_eq (self : population) (N : Z) :
  sample_redshift self N = sample_redshift_reading "redshif_cdf" self N.
Proof. reflexivity. Qed.

(** The same body reading [redshift_cdf], the attribute that
    [setup_redshift_cdf] binds: with variates in [[0,1)] it returns, and
    every redshift it returns is an edge of the table, within
    [[zmin, zmax)]. *)
Lemma sample_redshift_reading_redshift_cdf
    (self self' : population) (zmax zmin : R) (bins N : Z) (w : world) :
  0 < zmin < zmax →
  (0 < bins)%Z →
  (∀ z, zmin <= z < zmax → 0 < RedshiftDistribution self z) →
  (∀ i, 0 <= uniform i < 1) →
  setup_redshift_cdf self zmax zmin bins = Ok self' →
  (0 <= N)%Z →
  ∃ v w',
    sample_redshift_reading "redshift_cdf" self' N w = (Ok v, w')
    ∧ all_values (fun z => zmin <= z < zmax) v.
Proof.
  intros Hz Hb Hpos Hu Hrun HN.
  destruct (setup_redshift_cdf_run self zmax zmin bins Hz Hb)
    as (total & Ht & Hrun').
  rewrite Hrun' in Hrun. injection Hrun as <-.
  destruct (edges_of_spec zmax zmin bins Hz Hb) as (_ & _ & Hrange & _).
  set (edges := edges_of zmax zmin bins) in *.
  set (pdf := map (RedshiftDistribution self) edges) in *.
  assert (Hpdf : Forall (fun x => 0 < x) pdf).
  { apply List.Forall_forall. intros x Hx. apply in_map_iff in Hx.
    destruct Hx as (z & <- & Hzin). apply Hpos.
    rewrite List.Forall_forall in Hrange. apply Hrange. exact Hzin. }
  destruct (rescaled_cumsum_spec pdf total Hpdf Ht) as (Hclen & _ & Hcl).
  set (cdf := map (fun c => c / total) (cumsum pdf)) in *.
  assert (Hlen : length cdf = length edges)
    by (rewrite Hclen; unfold pdf; apply length_map).
  assert (Hidx : ∀ i, (searchsorted1 cdf (uniform i) < length edges)%nat).
  { intros i. rewrite <- Hlen.
    apply ArrayFacts.searchsorted1_lt with (t := 1); [exact Hcl|].
    specialize (Hu i). lra. }
  unfold sample_redshift_reading. run_M.
  rewrite getattr_setattr.
  rewrite getattr_setattr_ne by discriminate. rewrite getattr_setattr.
  destruct (Z.eqb N 1).
  - destruct (ArrayFacts.getitem1_elem edges _ _ Hrange (Hidx (drawn w)))
      as (z & Hget & Hzr).
    simpl. rewrite Hget. simpl. eauto.
  - destruct (Z.ltb_spec N 0); [lia|]. simpl.
    edestruct (ArrayFacts.getitem_elem edges) as (zs & Hget & Hzs & _);
      [exact Hrange | | rewrite Hget; simpl; eauto].
    rewrite map_map. apply List.Forall_forall. intros k Hk.
    apply in_map_iff in Hk. destruct Hk as (i & <- & _). apply Hidx.
Qed.

End PopulationFacts.

(** ** The grid of [np.arange] under rounding

    Real-number inequalities on the quantities [np.arange] computes: [e]
    is the unit roundoff, [b] the number of bins, [sR] the exact step
    [zmax/bins], and each computed quantity lies within relative error
    [e] of its exact argument. *)
Module GridFacts.

Lemma mul_le_cancel (s x y : R) : 0 < s → x * s <= y * s → x <= y.
Proof. intros Hs Hxy. apply Rmult_le_reg_r with s; assumption. Qed.

Lemma mul_lt_cancel (s x y : R) : 0 < s → x * s < y * s → x < y.
Proof. intros Hs Hxy. apply Rmult_lt_reg_r with s; assumption. Qed.

Lemma scale_le (e c t : R) : 0 <= e <= c → 0 <= t → 0 <= e * t <= c * t.
Proof.
  intros He Ht. split; [apply Rmult_le_pos; lra|].
  apply Rmult_le_compat_r; lra.
Qed.

Section Count.

Variables e b sR zmin zmax step d qa qt q : R.
Hypothesis He : 0 <= e <= / 9007199254740992.
Hypothesis Hb : 1 <= b <= 4294967296.
Hypothesis HsR : 0 < sR.
Hypothesis Hzmax : zmax = b * sR.
Hypothesis Hzmin : 0 < zmin.
Hypothesis Hone : zmin + sR <= zmax.
Hypothesis Hstep : sR * (1 - e) <= step <= sR * (1 + e).
Hypothesis Hd : (zmax - zmin) * (1 - e) <= d <= (zmax - zmin) * (1 + e).
Hypothesis Hqa : qa * step = d.
Hypothesis Hq : q * sR = zmax - zmin.

(** The exact quotient [(zmax - zmin)/(zmax/bins)]. *)
Lemma q_range : 1 <= q < b.
Proof.
  split.
  - apply mul_le_cancel with sR; [exact HsR|]. rewrite Hq. lra.
  - apply mul_lt_cancel with sR; [exact HsR|]. rewrite Hq, <- Hzmax. lra.
Qed.

Lemma step_pos : 0 < step.
Proof.
  pose proof (scale_le e _ sR He (Rlt_le _ _ HsR)). lra.
Qed.

Lemma eq_small : 0 <= e * q <= / 2097152.
Proof.
  pose proof q_range as [Hq1 Hq2].
  assert (Hq0 : 0 <= q) by lra.
  pose proof (scale_le e _ q He Hq0). lra.
Qed.

(** The quotient of the rounded difference by the rounded step. *)
Lemma qa_bounds : q * (1 - e) <= qa * (1 + e) ∧ qa * (1 - e) <= q * (1 + e).
Proof.
  pose proof q_range as [Hq1 Hq2]. pose proof step_pos as Hsp.
  assert (Hqa0 : 0 <= qa).
  { apply mul_le_cancel with step; [exact Hsp|]. rewrite Hqa, Rmult_0_l.
    apply Rle_trans with ((zmax - zmin) * (1 - e)); [|lra].
    apply Rmult_le_pos; lra. }
  split.
  - apply mul_le_cancel with sR; [exact HsR|].
    assert (qa * step <= qa * (sR * (1 + e))) by (apply Rmult_le_compat_l; lra).
    replace (q * (1 - e) * sR) with ((zmax - zmin) * (1 - e))
      by (rewrite <- Hq; ring).
    lra.
  - apply mul_le_cancel with sR; [exact HsR|].
    assert (qa * (sR * (1 - e)) <= qa * step) by (apply Rmult_le_compat_l; lra).
    replace (q * (1 + e) * sR) with ((zmax - zmin) * (1 + e))
      by (rewrite <- Hq; ring).
    lra.
Qed.

Lemma qa_range : / 2 <= qa <= 2 * b.
Proof.
  pose proof q_range as [Hq1 Hq2]. destruct qa_bounds as [Hlo Hhi].
  pose proof eq_small as Heq.
  assert (He1 : 0 < 1 - e) by lra. assert (He2 : 0 < 1 + e) by lra.
  assert (Hb0 : 0 <= b) by lra.
  pose proof (scale_le e _ b He Hb0) as Heb.
  split.
  - apply mul_le_cancel with (1 + e); [exact He2|]. lra.
  - apply mul_le_cancel with (1 - e); [exact He1|]. lra.
Qed.

Hypothesis Hqt : qa * (1 - e) <= qt <= qa * (1 + e).

(** The rounded quotient, whose ceiling is the number of edges. *)
Lemma qt_bounds : q * (1 - 4 * e) <= qt <= q * (1 + 4 * e).
Proof.
  pose proof q_range as [Hq1 Hq2]. destruct qa_bounds as [Hlo Hhi].
  pose proof eq_small as Heq.
  assert (He1 : 0 < 1 - e) by lra. assert (He2 : 0 < 1 + e) by lra.
  pose proof (scale_le e _ (e * q) He (proj1 Heq)) as Heeq.
  split.
  - apply mul_le_cancel with (1 + e); [exact He2|].
    assert (q * (1 - e) * (1 - e) <= qa * (1 + e) * (1 - e))
      by (apply Rmult_le_compat_r; lra).
    assert (qa * (1 - e) * (1 + e) <= qt * (1 + e))
      by (apply Rmult_le_compat_r; lra).
    lra.
  - apply mul_le_cancel with (1 - e); [exact He1|].
    assert (qa * (1 - e) * (1 + e) <= q * (1 + e) * (1 + e))
      by (apply Rmult_le_compat_r; lra).
    assert (qt * (1 - e) <= qa * (1 + e) * (1 - e))
      by (apply Rmult_le_compat_r; lra).
    lra.
Qed.

Lemma qt_range :
  0 < qt < b + 1
  ∧ (2 * sR <= zmin → qt < b - 1)
  ∧ (zmin <= sR / 2 → b - 1 < qt).
Proof.
  pose proof q_range as [Hq1 Hq2]. destruct qt_bounds as [Hlo Hhi].
  pose proof eq_small as Heq.
  split; [split; lra|]. split.
  - intros H2. assert (q <= b - 2).
    { apply mul_le_cancel with sR; [exact HsR|]. rewrite Hq.
      replace ((b - 2) * sR) with (zmax - 2 * sR) by (rewrite Hzmax; ring).
      lra. }
    lra.
  - intros H2. assert (b - / 2 <= q).
    { apply mul_le_cancel with sR; [exact HsR|]. rewrite Hq.
      replace ((b - / 2) * sR) with (zmax - sR / 2) by (rewrite Hzmax; field).
      lra. }
    lra.
Qed.

End Count.

Section Edge.

Variables e b sR zmin zmax step next dlt : R.
Hypothesis He : 0 <= e <= / 9007199254740992.
Hypothesis Hb : 1 <= b <= 4294967296.
Hypothesis HsR : 0 < sR.
Hypothesis Hzmax : zmax = b * sR.
Hypothesis Hzmin : 0 < zmin.
Hypothesis Hone : zmin + sR <= zmax.
Hypothesis Hstep : sR * (1 - e) <= step <= sR * (1 + e).

Lemma eb_small : 0 <= e * b <= / 2097152.
Proof.
  assert (Hb0 : 0 <= b) by lra.
  pose proof (scale_le e _ b He Hb0). lra.
Qed.

(** The monomials of the analysis, each bounded by a multiple of [sR]. *)
Lemma monomials :
  0 <= e * sR <= / 9007199254740992 * sR
  ∧ 0 <= e * (e * sR) <= / 9007199254740992 * (e * sR)
  ∧ 0 <= e * b * sR <= / 2097152 * sR
  ∧ 0 <= e * b * (e * sR) <= / 2097152 * (e * sR)
  ∧ 0 <= e * zmin <= e * b * sR
  ∧ 0 <= e * step <= e * (sR * (1 + e)).
Proof.
  pose proof eb_small as Heb.
  pose proof (scale_le e _ sR He (Rlt_le _ _ HsR)) as M1.
  pose proof (scale_le e _ (e * sR) He (proj1 M1)) as M2.
  pose proof (scale_le (e * b) _ sR Heb (Rlt_le _ _ HsR)) as M3.
  pose proof (scale_le (e * b) _ (e * sR) Heb (proj1 M1)) as M4.
  repeat split; try tauto.
  - apply Rmult_le_pos; lra.
  - rewrite Rmult_assoc, <- Hzmax. apply Rmult_le_compat_l; lra.
  - apply Rmult_le_pos; lra.
  - apply Rmult_le_compat_l; lra.
Qed.

Lemma next_arg_range : zmin <= zmin + step <= 2 * zmax.
Proof. destruct monomials as (M1 & _). lra. Qed.

Hypothesis Hnext : (zmin + step) * (1 - e) <= next <= (zmin + step) * (1 + e).

(** The exact difference [next - start]. *)
Lemma darg_bounds :
  sR * (1 - e * (b + 3)) <= next - zmin <= sR * (1 + e * (b + 3)).
Proof.
  destruct monomials as (M1 & M2 & M3 & M4 & M5 & M6). split; lra.
Qed.

Lemma darg_range : sR / 2 <= next - zmin <= 2 * sR.
Proof.
  destruct monomials as (M1 & M2 & M3 & M4 & M5 & M6).
  destruct darg_bounds as [Hlo Hhi]. split; lra.
Qed.

Hypothesis Hdlt : (next - zmin) * (1 - e) <= dlt <= (next - zmin) * (1 + e).

(** The increment [delta] of the fill loop. *)
Lemma dlt_bounds :
  sR * (1 - e * (b + 5)) <= dlt <= sR * (1 + e * (b + 5)).
Proof.
  destruct monomials as (M1 & M2 & M3 & M4 & M5 & M6).
  destruct darg_bounds as [Hlo Hhi]. destruct darg_range as [Hh _].
  assert (H1 : sR * (1 - e * (b + 3)) * (1 - e) <= (next - zmin) * (1 - e))
    by (apply Rmult_le_compat_r; lra).
  assert (H2 : (next - zmin) * (1 + e) <= sR * (1 + e * (b + 3)) * (1 + e))
    by (apply Rmult_le_compat_r; lra).
  split; lra.
Qed.

(** The second edge is above the first. *)
Lemma adj01 : zmin < next.
Proof.
  destruct monomials as (M1 & M2 & M3 & M4 & M5 & M6).
  assert (H1 : sR * (1 - e) * (1 - e) <= step * (1 - e))
    by (apply Rmult_le_compat_r; lra).
  lra.
Qed.

End Edge.

Section Fill.

Variables e b sR zmin zmax step next dlt : R.
Hypothesis He : 0 <= e <= / 9007199254740992.
Hypothesis Hb : 1 <= b <= 4294967296.
Hypothesis HsR : 0 < sR.
Hypothesis Hzmax : zmax = b * sR.
Hypothesis Hzmin : 0 < zmin.
Hypothesis Hone : zmin + sR <= zmax.
Hypothesis Hstep : sR * (1 - e) <= step <= sR * (1 + e).
Hypothesis Hnext : (zmin + step) * (1 - e) <= next <= (zmin + step) * (1 + e).
Hypothesis Hdlt : sR * (1 - e * (b + 5)) <= dlt <= sR * (1 + e * (b + 5)).

Lemma g_small : 0 <= e * (b + 5) <= / 262144.
Proof. pose proof (eb_small e b He Hb). lra. Qed.

Lemma dlt_half : sR / 2 <= dlt.
Proof.
  pose proof (scale_le _ _ sR g_small (Rlt_le _ _ HsR)). lra.
Qed.

Lemma dlt_near : sR * (1 - / 262144) <= dlt <= sR * (1 + / 262144).
Proof.
  pose proof (scale_le _ _ sR g_small (Rlt_le _ _ HsR)). lra.
Qed.

Lemma ez_small : 0 <= e * zmin <= dlt / 1048576.
Proof.
  destruct (monomials e b sR zmin zmax step He Hb HsR Hzmax Hzmin Hone Hstep)
    as (M1 & M2 & M3 & M4 & M5 & M6).
  pose proof dlt_half. lra.
Qed.

(** The third edge is above the second. *)
Lemma adj12 (p x : R) :
  2 * dlt * (1 - e) <= p <= 2 * dlt * (1 + e) →
  (zmin + p) * (1 - e) <= x <= (zmin + p) * (1 + e) →
  next < x.
Proof.
  intros Hp Hx. pose proof ez_small as Hez. pose proof dlt_half as Hdh.
  pose proof dlt_near as Hdn.
  assert (Hd0 : 0 < dlt) by lra.
  assert (Hn : next <= (zmin + sR * (1 + e)) * (1 + e)).
  { apply Rle_trans with ((zmin + step) * (1 + e)); [lra|].
    apply Rmult_le_compat_r; lra. }
  pose proof (scale_le e _ dlt He (Rlt_le _ _ Hd0)) as Hed.
  assert (Hx' : (zmin + 2 * dlt * (1 - e)) * (1 - e) <= x).
  { apply Rle_trans with ((zmin + p) * (1 - e)); [|lra].
    apply Rmult_le_compat_r; lra. }
  assert (He1 : 0 <= e <= 1) by lra.
  pose proof (scale_le e 1 (e * dlt) He1 (proj1 Hed)) as Heed.
  pose proof (scale_le e _ sR He (Rlt_le _ _ HsR)) as Hes.
  pose proof (scale_le e 1 (e * sR) He1 (proj1 Hes)) as Hees.
  pose proof (scale_le e 1 (e * zmin) He1 (proj1 Hez)) as Heez.
  lra.
Qed.

(** Each later edge is above its predecessor. *)
Lemma adj (I p x p' x' : R) :
  2 <= I <= b →
  I * dlt * (1 - e) <= p <= I * dlt * (1 + e) →
  (zmin + p) * (1 - e) <= x <= (zmin + p) * (1 + e) →
  (I + 1) * dlt * (1 - e) <= p' <= (I + 1) * dlt * (1 + e) →
  (zmin + p') * (1 - e) <= x' <= (zmin + p') * (1 + e) →
  x < x'.
Proof.
  intros HI Hp Hx Hp' Hx'. pose proof ez_small as Hez.
  pose proof dlt_half as Hdh. pose proof (eb_small e b He Hb) as Heb.
  assert (Hd0 : 0 < dlt) by lra.
  assert (He1 : 0 <= e <= 1) by lra.
  assert (HeI : 0 <= e * I <= / 2097152).
  { split; [apply Rmult_le_pos; lra|].
    apply Rle_trans with (e * b); [apply Rmult_le_compat_l; lra | lra]. }
  pose proof (scale_le _ _ dlt HeI (Rlt_le _ _ Hd0)) as M3.
  pose proof (scale_le e _ dlt He (Rlt_le _ _ Hd0)) as M5.
  assert (Hx1 : x <= (zmin + I * dlt * (1 + e)) * (1 + e)).
  { apply Rle_trans with ((zmin + p) * (1 + e)); [lra|].
    apply Rmult_le_compat_r; lra. }
  assert (Hx2 : (zmin + (I + 1) * dlt * (1 - e)) * (1 - e) <= x').
  { apply Rle_trans with ((zmin + p') * (1 - e)); [|lra].
    apply Rmult_le_compat_r; lra. }
  pose proof (scale_le e 1 (e * I * dlt) He1 (proj1 M3)) as M4.
  pose proof (scale_le e 1 (e * dlt) He1 (proj1 M5)) as M6.
  pose proof (scale_le e 1 (e * zmin) He1 (proj1 Hez)) as M2.
  lra.
Qed.

(** The exact product [i*delta] of an edge that is kept. *)
Lemma prod_arg_upper (q I : R) :
  q * sR = zmax - zmin →
  0 <= I <= q * (1 + 4 * e) →
  I * dlt <= (zmax - zmin) * (1 + / 131072).
Proof.
  intros Hq HI. pose proof g_small as Hg. pose proof dlt_half as Hdh.
  assert (Hd0 : 0 < dlt) by lra.
  assert (HA : 0 <= zmax - zmin) by lra.
  assert (Hq0 : 0 <= q * (1 + 4 * e)) by lra.
  assert (H1 : I * dlt <= q * (1 + 4 * e) * dlt)
    by (apply Rmult_le_compat_r; lra).
  assert (H2 : q * (1 + 4 * e) * dlt <= q * (1 + 4 * e) * (sR * (1 + e * (b + 5))))
    by (apply Rmult_le_compat_l; lra).
  assert (H3 : q * (1 + 4 * e) * (sR * (1 + e * (b + 5)))
               = (zmax - zmin) * ((1 + 4 * e) * (1 + e * (b + 5))))
    by (rewrite <- Hq; ring).
  pose proof (scale_le e _ (e * (b + 5)) He (proj1 Hg)) as Heg.
  assert (H4 : (1 + 4 * e) * (1 + e * (b + 5)) <= 1 + / 131072) by lra.
  assert (H5 : (zmax - zmin) * ((1 + 4 * e) * (1 + e * (b + 5)))
               <= (zmax - zmin) * (1 + / 131072))
    by (apply Rmult_le_compat_l; lra).
  lra.
Qed.

(** The exact sum [start + i*delta] of an edge that is kept. *)
Lemma sum_arg_upper (q I p : R) :
  q * sR = zmax - zmin →
  0 <= I <= q * (1 + 4 * e) →
  I * dlt * (1 - e) <= p <= I * dlt * (1 + e) →
  zmin + p <= zmax * (1 + / 100000).
Proof.
  intros Hq HI Hp. pose proof (prod_arg_upper q I Hq HI) as H5.
  assert (HA : 0 <= zmax - zmin) by lra.
  assert (H6 : p <= (zmax - zmin) * (1 + / 131072) * (1 + e)).
  { apply Rle_trans with (I * dlt * (1 + e)); [lra|].
    apply Rmult_le_compat_r; lra. }
  assert (H7 : (1 + / 131072) * (1 + e) <= 1 + / 100000) by lra.
  assert (H8 : (zmax - zmin) * ((1 + / 131072) * (1 + e))
               <= (zmax - zmin) * (1 + / 100000))
    by (apply Rmult_le_compat_l; lra).
  lra.
Qed.

(** No edge that is kept exceeds [zmax] by more than a relative
    [2^-16]. *)
Lemma item_upper (q I p x : R) :
  q * sR = zmax - zmin →
  0 <= I <= q * (1 + 4 * e) →
  I * dlt * (1 - e) <= p <= I * dlt * (1 + e) →
  (zmin + p) * (1 - e) <= x <= (zmin + p) * (1 + e) →
  x <= zmax * (1 + / 65536).
Proof.
  intros Hq HI Hp Hx. pose proof (sum_arg_upper q I p Hq HI Hp) as H10.
  assert (H11 : 0 <= zmax) by lra.
  assert (H9 : x <= zmax * (1 + / 100000) * (1 + e)).
  { apply Rle_trans with ((zmin + p) * (1 + e)); [lra|].
    apply Rmult_le_compat_r; lra. }
  assert (H13 : (1 + / 100000) * (1 + e) <= 1 + / 65536) by lra.
  apply Rle_trans with (zmax * (1 + / 100000) * (1 + e)); [lra|].
  rewrite Rmult_assoc. apply Rmult_le_compat_l; lra.
Qed.

(** Each later edge lies within a relative [2^-16] of its place
    [zmin + i*zmax/bins] on the exact grid. *)
Lemma item_near (I p x : R) :
  0 <= I →
  I * dlt * (1 - e) <= p <= I * dlt * (1 + e) →
  (zmin + p) * (1 - e) <= x <= (zmin + p) * (1 + e) →
  (zmin + I * sR) * (1 - / 65536) <= x <= (zmin + I * sR) * (1 + / 65536).
Proof.
  intros HI Hp Hx. destruct dlt_near as [Hlo Hhi].
  assert (HIs : 0 <= I * sR) by (apply Rmult_le_pos; lra).
  assert (H1 : I * (sR * (1 - / 262144)) <= I * dlt)
    by (apply Rmult_le_compat_l; lra).
  assert (H2 : I * dlt <= I * (sR * (1 + / 262144)))
    by (apply Rmult_le_compat_l; lra).
  assert (H3 : I * (sR * (1 - / 262144)) * (1 - e) <= I * dlt * (1 - e))
    by (apply Rmult_le_compat_r; lra).
  assert (H4 : I * dlt * (1 + e) <= I * (sR * (1 + / 262144)) * (1 + e))
    by (apply Rmult_le_compat_r; lra).
  pose proof (scale_le e _ (I * sR) He HIs) as M1.
  assert (Hp0 : 0 <= p).
  { apply Rle_trans with (I * (sR * (1 - / 262144)) * (1 - e)); [|lra].
    apply Rmult_le_pos; [apply Rmult_le_pos|]; lra. }
  assert (Hzp : 0 <= zmin + p) by lra.
  pose proof (scale_le e _ (zmin + p) He Hzp) as M2.
  split; lra.
Qed.

Lemma next_near :
  (zmin + sR) * (1 - / 65536) <= next <= (zmin + sR) * (1 + / 65536).
Proof.
  assert (Hzs : 0 <= zmin + step).
  { pose proof (scale_le e _ sR He (Rlt_le _ _ HsR)). lra. }
  pose proof (scale_le e _ (zmin + step) He Hzs) as M1.
  pose proof (scale_le e _ sR He (Rlt_le _ _ HsR)) as M2.
  split; lra.
Qed.

Lemma next_upper : next <= zmax * (1 + / 65536).
Proof.
  assert (H0 : 0 <= zmax) by lra.
  assert (H1 : next <= (zmin + sR * (1 + e)) * (1 + e)).
  { apply Rle_trans with ((zmin + step) * (1 + e)); [lra|].
    apply Rmult_le_compat_r; lra. }
  assert (Hse : e * sR <= e * zmax) by (apply Rmult_le_compat_l; lra).
  assert (H2 : zmin + sR * (1 + e) <= zmax * (1 + e)) by lra.
  assert (H4 : (zmin + sR * (1 + e)) * (1 + e) <= zmax * (1 + e) * (1 + e))
    by (apply Rmult_le_compat_r; lra).
  assert (He1 : 0 <= e <= 1) by lra.
  pose proof (scale_le e 1 e He1 (proj1 He)) as Hee.
  assert (H5 : (1 + e) * (1 + e) <= 1 + / 65536) by lra.
  apply Rle_trans with (zmax * (1 + e) * (1 + e)); [lra|].
  rewrite Rmult_assoc. apply Rmult_le_compat_l; lra.
Qed.

End Fill.

End GridFacts.

(** ** The table under rounding *)

Section RoundingFacts.

Context {U : FloatUnit} {L : FloatLaws U}.

Lemma rnd_0 : rnd 0 = 0.
Proof. apply (rnd_integer 0). simpl. lia. Qed.

Lemma rnd_1 : rnd 1 = 1.
Proof. apply (rnd_integer 1). simpl. lia. Qed.

(** A float operation whose exact result is in the normal range is
    within the unit roundoff of it. *)
Lemma rnd_near (x : R) :
  tiny <= x <= huge → x * (1 - eps) <= rnd x <= x * (1 + eps).
Proof.
  intros Hx. pose proof tiny_bound as Ht.
  pose proof (rnd_relative x) as Hr. rewrite (Rabs_pos_eq x) in Hr by lra.
  specialize (Hr Hx). unfold Rabs in Hr at 1.
  destruct (Rcase_abs _); lra.
Qed.

Lemma cumsum_fl_from_length (acc : R) (xs : list R) :
  length (cumsum_fl_from acc xs) = length xs.
Proof.
  revert acc. induction xs as [|x xs IH]; intros acc; simpl; [reflexivity|].
  f_equal. apply IH.
Qed.

Lemma cumsum_fl_length (xs : list R) : length (cumsum_fl xs) = length xs.
Proof.
  destruct xs as [|x xs]; simpl; [reflexivity|].
  f_equal. apply cumsum_fl_from_length.
Qed.

(** The running sums of positive floats do not decrease. *)
Lemma cumsum_fl_from_sorted (acc : R) (xs : list R) :
  rnd acc = acc →
  Forall (fun x => 0 < x) xs →
  Forall (fun s => acc <= s) (cumsum_fl_from acc xs)
  ∧ StronglySorted Rle (cumsum_fl_from acc xs).
Proof.
  intros Hacc Hpos. revert acc Hacc.
  induction Hpos as [|x xs Hx _ IH]; intros acc Hacc; simpl.
  - split; constructor.
  - assert (Hs : acc <= rnd (acc + x)).
    { rewrite <- Hacc at 1. apply rnd_monotone. lra. }
    destruct (IH (rnd (acc + x)) (rnd_idempotent _)) as [Hlow Hsorted].
    split; constructor.
    + exact Hs.
    + eapply Forall_impl; [exact Hlow|]. simpl. intros s Hle. lra.
    + exact Hsorted.
    + exact Hlow.
Qed.

Lemma cumsum_fl_sorted (xs : list R) :
  Forall (fun x => 0 < x ∧ rnd x = x) xs →
  StronglySorted Rle (cumsum_fl xs)
  ∧ Forall (fun s => 0 < s) (cumsum_fl xs).
Proof.
  intros Hxs. destruct Hxs as [|x xs [Hx Hr] Hrest]; simpl.
  - split; constructor.
  - assert (Hpos : Forall (fun x => 0 < x) xs).
    { eapply Forall_impl; [exact Hrest|]. simpl. intros y Hy. tauto. }
    destruct (cumsum_fl_from_sorted x xs Hr Hpos) as [Hlow Hsorted].
    split; constructor; try assumption.
    eapply Forall_impl; [exact Hlow|]. simpl. intros s Hle. lra.
Qed.

(** They stay finite: the sum of [k] floats of at most [bound] is at
    most [k * bound * (1 + 2*k*eps)]. *)
Lemma cumsum_fl_from_bounded (bound N : R) (xs : list R) :
  tiny <= bound →
  2 * N * bound <= huge →
  N <= 4294967297 →
  Forall (fun x => 0 < x <= bound) xs →
  ∀ (k : nat) (acc : R),
    INR k + INR (length xs) <= N →
    rnd acc = acc →
    0 < acc <= INR k * bound * (1 + 2 * INR k * eps) →
    Forall (fun s => 0 < s <= 2 * N * bound) (cumsum_fl_from acc xs).
Proof.
  intros Hb Hh HN Hxs. pose proof eps_bound as He. pose proof tiny_bound as Ht.
  induction Hxs as [|x xs Hx _ IH]; intros k acc HkN Hrep Hacc; simpl.
  { constructor. }
  simpl length in HkN. rewrite S_INR in HkN.
  pose proof (pos_INR (length xs)) as Hlen.
  pose proof (pos_INR k) as Hk0.
  set (K := INR k) in *.
  assert (Hb0 : 0 <= bound) by lra.
  assert (HKe : 0 <= K * eps <= / 2097151).
  { split; [apply Rmult_le_pos; lra|].
    apply Rle_trans with (4294967297 * eps);
      [apply Rmult_le_compat_r; lra | lra]. }
  assert (HK1e : 0 <= (K + 1) * eps <= / 2097151).
  { split; [apply Rmult_le_pos; lra|].
    apply Rle_trans with (4294967297 * eps);
      [apply Rmult_le_compat_r; lra | lra]. }
  assert (HKb : 0 <= K * bound) by (apply Rmult_le_pos; lra).
  assert (HK1b : 0 <= (K + 1) * bound) by (apply Rmult_le_pos; lra).
  assert (HKeb : 0 <= K * eps * bound) by (apply Rmult_le_pos; lra).
  assert (Heb : 0 <= eps * bound) by (apply Rmult_le_pos; lra).
  pose proof (GridFacts.scale_le _ _ (K * bound) HKe HKb) as M1.
  pose proof (GridFacts.scale_le _ _ (K * eps * bound) HKe HKeb) as M2.
  pose proof (GridFacts.scale_le _ _ ((K + 1) * bound) HK1e HK1b) as M5.
  assert (HNb : (K + 1) * bound <= N * bound)
    by (apply Rmult_le_compat_r; lra).
  assert (Hlow : acc <= rnd (acc + x)).
  { rewrite <- Hrep at 1. apply rnd_monotone. lra. }
  assert (Hnew : rnd (acc + x) <= (K + 1) * bound * (1 + 2 * (K + 1) * eps)).
  { destruct (Rle_or_lt tiny (acc + x)) as [Hbig|Hsmall].
    - destruct (rnd_near (acc + x)) as [Hlo Hhi]; [lra|].
      assert (M4 : eps * (acc + x)
                   <= eps * (K * bound * (1 + 2 * K * eps) + bound))
        by (apply Rmult_le_compat_l; lra).
      lra.
    - destruct (rnd_near tiny) as [Hlo Hhi]; [pose proof huge_bound; lra|].
      assert (Hle : rnd (acc + x) <= rnd tiny)
        by (apply rnd_monotone; lra).
      assert (M4 : eps * tiny <= eps * bound)
        by (apply Rmult_le_compat_l; lra).
      lra. }
  constructor.
  - lra.
  - apply (IH (S k)).
    + rewrite S_INR. fold K. lra.
    + apply rnd_idempotent.
    + rewrite S_INR. fold K. lra.
Qed.

Lemma cumsum_fl_bounded (bound : R) (N : Z) (xs : list R) :
  tiny <= bound →
  2 * IZR N * bound <= huge →
  (N <= 4294967297)%Z →
  (Z.of_nat (length xs) <= N)%Z →
  Forall (fun x => 0 < x <= bound ∧ rnd x = x) xs →
  Forall (fun s => 0 < s <= huge) (cumsum_fl xs).
Proof.
  intros Hb Hh HN Hlen Hxs. pose proof eps_bound as He.
  destruct Hxs as [|x xs [Hx Hr] Hrest]; simpl; [constructor|].
  simpl length in Hlen.
  assert (HNr : IZR N <= 4294967297) by (apply IZR_le; exact HN).
  assert (HlenR : 1 + INR (length xs) <= IZR N).
  { rewrite INR_IZR_INZ. rewrite <- (plus_IZR 1). apply IZR_le. lia. }
  pose proof (pos_INR (length xs)) as Hl0.
  assert (HNb : 1 * bound <= IZR N * bound)
    by (apply Rmult_le_compat_r; lra).
  constructor; [lra|].
  assert (Hrest' : Forall (fun x => 0 < x <= bound) xs).
  { eapply Forall_impl; [exact Hrest|]. simpl. intros y Hy. tauto. }
  assert (Heb : 0 <= eps * bound) by (apply Rmult_le_pos; lra).
  pose proof (cumsum_fl_from_bounded bound (IZR N) xs Hb Hh HNr Hrest' 1 x)
    as Hall.
  eapply Forall_impl; [apply Hall|].
  - simpl. lra.
  - exact Hr.
  - simpl. lra.
  - simpl. intros s Hs. lra.
Qed.

End RoundingFacts.

Module SeqFacts.

(** An array whose neighbours increase is strictly increasing. *)
Lemma increasing_from_neighbours (f : nat → R) (m : nat) :
  (∀ i, (S i < m)%nat → f i < f (S i)) →
  ∀ i j, (i < j)%nat → (j < m)%nat → f i < f j.
Proof.
  intros Hf i j Hij. induction Hij as [|j Hij IH]; intros Hm.
  - apply Hf. exact Hm.
  - apply Rlt_trans with (f j); [apply IH; lia | apply Hf; exact Hm].
Qed.

Lemma StronglySorted_map_seq_below (f : nat → R) (a n : nat) :
  (∀ i j, (i < j)%nat → (j < a + n)%nat → f i < f j) →
  StronglySorted Rlt (map f (seq a n)).
Proof.
  revert a. induction n as [|n IH]; intros a Hf; simpl; constructor.
  - apply IH. intros i j Hij Hj. apply Hf; lia.
  - apply List.Forall_forall. intros y Hy. apply in_map_iff in Hy.
    destruct Hy as (j & <- & Hj). apply in_seq in Hj. apply Hf; lia.
Qed.

End SeqFacts.

(** The side conditions of the lemmas of [GridFacts]. *)
Ltac grid_side :=
  try first [exact eps_bound | assumption].

Section GridRounded.

Context {U : FloatUnit} {L : FloatLaws U}.

Variables (zmax zmin : R) (bins : Z).
Hypothesis Hbins : (1 <= bins <= 4294967296)%Z.
Hypothesis Htiny : 2 * IZR bins * tiny <= zmin.
Hypothesis Hone : zmin + zmax / IZR bins <= zmax.
Hypothesis Hhuge : 2 * zmax <= huge.

Local Abbreviation SR := (zmax / IZR bins).
Local Abbreviation STEP := (grid_step zmax bins).
Local Abbreviation NEXT := (grid_next zmax zmin bins).
Local Abbreviation DLT := (grid_delta zmax zmin bins).
Local Abbreviation QT := (rnd (rnd (zmax - zmin) / grid_step zmax bins)).
Local Abbreviation CNT := (grid_count zmax zmin bins).

Lemma float_bins : rnd (IZR bins) = IZR bins.
Proof. apply rnd_integer. lia. Qed.

Lemma grid_step_eq : STEP = rnd SR.
Proof. unfold grid_step. rewrite float_bins. reflexivity. Qed.

(** What the hypotheses say of the exact step. *)
Lemma grid_basics :
  1 <= IZR bins <= 4294967296
  ∧ 0 < zmin ∧ tiny <= zmin
  ∧ 0 < SR ∧ zmax = IZR bins * SR ∧ 2 * tiny <= SR ∧ SR <= zmax.
Proof.
  pose proof tiny_bound as Ht.
  assert (Hb : 1 <= IZR bins <= 4294967296)
    by (split; apply IZR_le; lia).
  assert (Hbt : 1 * tiny <= IZR bins * tiny)
    by (apply Rmult_le_compat_r; lra).
  assert (Hz : zmax = IZR bins * SR) by (field; lra).
  assert (HsR : 0 < SR).
  { destruct (Rlt_or_le 0 SR) as [Hp|Hn]; [exact Hp|].
    assert (0 <= (IZR bins - 1) * - SR) by (apply Rmult_le_pos; lra).
    lra. }
  split; [exact Hb|]. split; [lra|]. split; [lra|]. split; [exact HsR|].
  split; [exact Hz|]. split; [|lra].
  apply GridFacts.mul_le_cancel with (IZR bins); [lra|]. lra.
Qed.

Lemma grid_step_near : SR * (1 - eps) <= STEP <= SR * (1 + eps).
Proof.
  destruct grid_basics as (Hb & Hz0 & Hzt & HsR & Hz & Hst & Hsz).
  rewrite grid_step_eq. apply rnd_near. lra.
Qed.

Lemma grid_step_pos : 0 < STEP.
Proof.
  destruct grid_basics as (Hb & Hz0 & Hzt & HsR & Hz & Hst & Hsz).
  exact (GridFacts.step_pos eps SR STEP eps_bound HsR grid_step_near).
Qed.

Lemma grid_diff_near :
  (zmax - zmin) * (1 - eps) <= rnd (zmax - zmin) <= (zmax - zmin) * (1 + eps).
Proof.
  destruct grid_basics as (Hb & Hz0 & Hzt & HsR & Hz & Hst & Hsz).
  apply rnd_near. lra.
Qed.

Lemma grid_quotient_eq : (zmax - zmin) / SR * SR = zmax - zmin.
Proof.
  destruct grid_basics as (Hb & Hz0 & Hzt & HsR & Hz & Hst & Hsz).
  field. split; lra.
Qed.

Lemma grid_ratio_eq :
  rnd (zmax - zmin) / STEP * STEP = rnd (zmax - zmin).
Proof. pose proof grid_step_pos. field. lra. Qed.

Lemma grid_quotient_near :
  (zmax - zmin) / SR * (1 - 4 * eps) <= QT <= (zmax - zmin) / SR * (1 + 4 * eps).
Proof.
  destruct grid_basics as (Hb & Hz0 & Hzt & HsR & Hz & Hst & Hsz).
  pose proof tiny_bound as Ht. pose proof huge_bound as Hh.
  pose proof grid_step_near as Hstep. pose proof grid_diff_near as Hd.
  pose proof grid_ratio_eq as Hqa. pose proof grid_quotient_eq as Hq.
  assert (Hr : / 2 <= rnd (zmax - zmin) / STEP <= 2 * IZR bins).
  { apply GridFacts.qa_range with (e := eps) (sR := SR) (zmin := zmin)
      (zmax := zmax) (step := STEP) (d := rnd (zmax - zmin))
      (q := (zmax - zmin) / SR); grid_side. }
  apply GridFacts.qt_bounds with (b := IZR bins) (sR := SR) (zmin := zmin)
    (zmax := zmax) (step := STEP) (d := rnd (zmax - zmin))
    (qa := rnd (zmax - zmin) / STEP); grid_side.
  apply rnd_near. lra.
Qed.

(** The number of edges: between 1 and [bins + 1]; below [bins] when
    [zmin] is two steps or more, [bins] or [bins + 1] when [zmin] is half
    a step or less. *)
Lemma grid_count_range :
  (1 <= CNT <= bins + 1)%Z
  ∧ (2 * SR <= zmin → (CNT < bins)%Z)
  ∧ (zmin <= SR / 2 → (bins <= CNT)%Z).
Proof.
  destruct grid_basics as (Hb & Hz0 & Hzt & HsR & Hz & Hst & Hsz).
  pose proof tiny_bound as Ht. pose proof huge_bound as Hh.
  pose proof grid_step_near as Hstep. pose proof grid_diff_near as Hd.
  pose proof grid_ratio_eq as Hqa. pose proof grid_quotient_eq as Hq.
  assert (Hr : / 2 <= rnd (zmax - zmin) / STEP <= 2 * IZR bins).
  { apply GridFacts.qa_range with (e := eps) (sR := SR) (zmin := zmin)
      (zmax := zmax) (step := STEP) (d := rnd (zmax - zmin))
      (q := (zmax - zmin) / SR); grid_side. }
  assert (Hqt : 0 < QT < IZR bins + 1
                ∧ (2 * SR <= zmin → QT < IZR bins - 1)
                ∧ (zmin <= SR / 2 → IZR bins - 1 < QT)).
  { apply GridFacts.qt_range with (e := eps) (zmax := zmax)
      (step := STEP) (d := rnd (zmax - zmin))
      (qa := rnd (zmax - zmin) / STEP) (q := (zmax - zmin) / SR); grid_side.
    apply rnd_near. lra. }
  destruct Hqt as ([Hq0 Hq1] & Hfew & Hmany).
  pose proof (Zceil_bound QT) as [Hlo Hhi]. unfold grid_count.
  assert (H1 : (0 < Zceil QT)%Z) by (apply lt_IZR; lra).
  assert (H2 : (Zceil QT < bins + 2)%Z)
    by (apply lt_IZR; rewrite plus_IZR; lra).
  split; [lia|]. split.
  - intros Htwo. specialize (Hfew Htwo). apply lt_IZR. lra.
  - intros Hhalf. specialize (Hmany Hhalf).
    assert (bins - 1 < Zceil QT)%Z
      by (apply lt_IZR; rewrite minus_IZR; lra).
    lia.
Qed.

Lemma grid_next_near :
  (zmin + STEP) * (1 - eps) <= NEXT <= (zmin + STEP) * (1 + eps).
Proof.
  destruct grid_basics as (Hb & Hz0 & Hzt & HsR & Hz & Hst & Hsz).
  pose proof grid_step_near as Hstep.
  assert (Hr : zmin <= zmin + STEP <= 2 * zmax).
  { apply GridFacts.next_arg_range with (e := eps) (b := IZR bins)
      (sR := SR); grid_side. }
  apply rnd_near. lra.
Qed.

Lemma grid_delta_near :
  SR * (1 - eps * (IZR bins + 5)) <= DLT <= SR * (1 + eps * (IZR bins + 5)).
Proof.
  destruct grid_basics as (Hb & Hz0 & Hzt & HsR & Hz & Hst & Hsz).
  pose proof grid_step_near as Hstep. pose proof grid_next_near as Hnext.
  assert (Hr : SR / 2 <= NEXT - zmin <= 2 * SR).
  { apply GridFacts.darg_range with (e := eps) (b := IZR bins)
      (zmax := zmax) (step := STEP); grid_side. }
  apply GridFacts.dlt_bounds with (zmin := zmin) (zmax := zmax)
    (step := STEP) (next := NEXT); grid_side.
  apply rnd_near. pose proof tiny_bound. lra.
Qed.

Lemma grid_delta_half : SR / 2 <= DLT.
Proof.
  destruct grid_basics as (Hb & Hz0 & Hzt & HsR & Hz & Hst & Hsz).
  pose proof grid_delta_near as Hdlt.
  apply GridFacts.dlt_half with (e := eps) (b := IZR bins); grid_side.
Qed.

(** The product and the sum the fill loop rounds at an index that is
    kept. *)
Lemma grid_item_near (i : nat) :
  (2 <= i)%nat → (Z.of_nat i < CNT)%Z →
  let p := rnd (INR i * DLT) in
  2 <= INR i <= (zmax - zmin) / SR * (1 + 4 * eps)
  ∧ INR i * DLT * (1 - eps) <= p <= INR i * DLT * (1 + eps)
  ∧ (zmin + p) * (1 - eps) <= rnd (zmin + p) <= (zmin + p) * (1 + eps).
Proof.
  intros Hi Hcnt p.
  destruct grid_basics as (Hb & Hz0 & Hzt & HsR & Hz & Hst & Hsz).
  pose proof eps_bound as He. pose proof tiny_bound as Ht.
  pose proof grid_delta_near as Hdlt. pose proof grid_delta_half as Hdh.
  pose proof grid_quotient_eq as Hq.
  destruct grid_quotient_near as [_ Hqt].
  pose proof (Zceil_bound QT) as [Hlo _].
  assert (HI : 2 <= INR i <= (zmax - zmin) / SR * (1 + 4 * eps)).
  { split.
    - apply (le_INR 2) in Hi. simpl in Hi. lra.
    - assert (INR i <= IZR (grid_count zmax zmin bins) - 1).
      { rewrite INR_IZR_INZ, <- minus_IZR. apply IZR_le. lia. }
      unfold grid_count in *. lra. }
  assert (Hparg : INR i * DLT <= (zmax - zmin) * (1 + / 131072)).
  { apply GridFacts.prod_arg_upper with (e := eps) (b := IZR bins)
      (sR := SR) (q := (zmax - zmin) / SR); grid_side. lra. }
  assert (Hplow : 2 * DLT <= INR i * DLT)
    by (apply Rmult_le_compat_r; lra).
  assert (Hp : INR i * DLT * (1 - eps) <= p <= INR i * DLT * (1 + eps)).
  { apply rnd_near. lra. }
  assert (Hp0 : 0 <= p).
  { apply Rle_trans with (INR i * DLT * (1 - eps)); [|lra].
    apply Rmult_le_pos; [apply Rmult_le_pos|]; lra. }
  assert (Hxarg : zmin + p <= zmax * (1 + / 100000)).
  { apply GridFacts.sum_arg_upper with (e := eps) (b := IZR bins)
      (sR := SR) (dlt := DLT) (q := (zmax - zmin) / SR) (I := INR i);
      grid_side. lra. }
  split; [exact HI|]. split; [exact Hp|].
  apply rnd_near. lra.
Qed.

Lemma grid_edge_SS (k : nat) :
  grid_edge zmax zmin bins (S (S k))
  = rnd (zmin + rnd (INR (S (S k)) * DLT)).
Proof. reflexivity. Qed.

(** Each edge that is kept is above its predecessor. *)
Lemma grid_edge_increasing (i : nat) :
  (Z.of_nat (S i) < CNT)%Z →
  grid_edge zmax zmin bins i < grid_edge zmax zmin bins (S i).
Proof.
  intros Hcnt.
  destruct grid_basics as (Hb & Hz0 & Hzt & HsR & Hz & Hst & Hsz).
  pose proof eps_bound as He.
  pose proof grid_step_near as Hstep. pose proof grid_next_near as Hnext.
  pose proof grid_delta_near as Hdlt. pose proof grid_quotient_eq as Hq.
  destruct i as [|[|k]].
  - change (zmin < NEXT).
    apply GridFacts.adj01 with (e := eps) (b := IZR bins) (sR := SR)
      (zmax := zmax) (step := STEP); grid_side.
  - change (NEXT < grid_edge zmax zmin bins 2). rewrite grid_edge_SS.
    destruct (grid_item_near 2) as (_ & Hp & Hx); [lia | lia |].
    replace (INR 2) with 2 in * by (simpl; lra).
    apply GridFacts.adj12 with (e := eps) (b := IZR bins) (sR := SR)
      (zmin := zmin) (zmax := zmax) (step := STEP) (dlt := DLT)
      (p := rnd (2 * DLT)); grid_side.
  - rewrite !grid_edge_SS.
    destruct (grid_item_near (S (S k))) as (HI & Hp & Hx); [lia | lia |].
    destruct (grid_item_near (S (S (S k)))) as (HI' & Hp' & Hx');
      [lia | lia |].
    rewrite (S_INR (S (S k))) in HI', Hp', Hx' |- *.
    set (I := INR (S (S k))) in *.
    assert (HIb : 2 <= I <= IZR bins).
    { assert (Hqr : 1 <= (zmax - zmin) / SR < IZR bins)
        by (apply GridFacts.q_range with (sR := SR) (zmin := zmin)
              (zmax := zmax); grid_side).
      assert (Heq : 0 <= eps * ((zmax - zmin) / SR) <= / 2097152)
        by (apply GridFacts.eq_small with (b := IZR bins) (sR := SR)
              (zmin := zmin) (zmax := zmax); grid_side).
      lra. }
    apply GridFacts.adj with (e := eps) (b := IZR bins) (sR := SR)
      (zmin := zmin) (zmax := zmax) (step := STEP) (dlt := DLT) (I := I)
      (p := rnd (I * DLT)) (p' := rnd ((I + 1) * DLT)); grid_side.
Qed.

(** Each edge that is kept lies between [zmin] and [zmax], up to a
    relative [2^-16] above, and within a relative [2^-16] of its place
    on the exact grid. *)
Lemma grid_edge_range (i : nat) :
  (Z.of_nat i < CNT)%Z →
  zmin <= grid_edge zmax zmin bins i <= zmax * (1 + / 65536)
  ∧ (zmin + INR i * SR) * (1 - / 65536)
    <= grid_edge zmax zmin bins i
    <= (zmin + INR i * SR) * (1 + / 65536).
Proof.
  intros Hcnt.
  destruct grid_basics as (Hb & Hz0 & Hzt & HsR & Hz & Hst & Hsz).
  pose proof eps_bound as He.
  pose proof grid_step_near as Hstep. pose proof grid_next_near as Hnext.
  pose proof grid_delta_near as Hdlt. pose proof grid_quotient_eq as Hq.
  assert (Hlow : zmin <= grid_edge zmax zmin bins i).
  { destruct i as [|i]; [apply Rle_refl|]. apply Rlt_le.
    change zmin with (grid_edge zmax zmin bins 0) at 1.
    apply SeqFacts.increasing_from_neighbours
      with (m := Z.to_nat (grid_count zmax zmin bins)); [|lia|lia].
    intros j Hj. apply grid_edge_increasing. lia. }
  split; [split; [exact Hlow|]|]; destruct i as [|[|k]].
  - change (zmin <= zmax * (1 + / 65536)). lra.
  - change (NEXT <= zmax * (1 + / 65536)).
    apply GridFacts.next_upper with (e := eps) (sR := SR) (zmin := zmin)
      (step := STEP); grid_side.
  - rewrite grid_edge_SS.
    destruct (grid_item_near (S (S k))) as (HI & Hp & Hx); [lia | lia |].
    apply GridFacts.item_upper with (e := eps) (b := IZR bins) (sR := SR)
      (zmin := zmin) (dlt := DLT) (q := (zmax - zmin) / SR)
      (I := INR (S (S k))) (p := rnd (INR (S (S k)) * DLT)); grid_side.
    lra.
  - change (grid_edge zmax zmin bins 0) with zmin. simpl INR. lra.
  - change (grid_edge zmax zmin bins 1) with NEXT. simpl INR.
    rewrite Rmult_1_l.
    apply GridFacts.next_near with (e := eps) (step := STEP); grid_side.
  - rewrite grid_edge_SS.
    destruct (grid_item_near (S (S k))) as (HI & Hp & Hx); [lia | lia |].
    apply GridFacts.item_near with (e := eps) (b := IZR bins) (dlt := DLT)
      (p := rnd (INR (S (S k)) * DLT)); grid_side.
    lra.
Qed.

(** The edges [np.arange] returns. *)
Lemma edges_fl_spec :
  let edges := edges_fl zmax zmin bins in
  Z.of_nat (length edges) = CNT
  ∧ head edges = Some zmin
  ∧ Forall (fun z => zmin <= z <= zmax * (1 + / 65536)) edges
  ∧ StronglySorted Rlt edges
  ∧ (∀ i z, edges !! i = Some z →
       (zmin + INR i * SR) * (1 - / 65536) <= z
       <= (zmin + INR i * SR) * (1 + / 65536)).
Proof.
  intros edges. destruct grid_count_range as ([Hn1 Hn2] & _).
  unfold edges, edges_fl.
  split; [|split; [|split; [|split]]].
  - rewrite length_map, length_seq. lia.
  - destruct (Z.to_nat CNT) as [|k] eqn:E; [lia|]. reflexivity.
  - apply List.Forall_forall. intros z Hin. apply in_map_iff in Hin.
    destruct Hin as (i & <- & Hi). apply in_seq in Hi.
    apply grid_edge_range. lia.
  - apply SeqFacts.StronglySorted_map_seq_below. intros i j Hij Hj.
    apply SeqFacts.increasing_from_neighbours
      with (m := Z.to_nat CNT); [|lia|lia].
    intros k Hk. apply grid_edge_increasing. lia.
  - intros i z Hlook.
    change (map (grid_edge zmax zmin bins) (seq 0 (Z.to_nat CNT)))
      with (grid_edge zmax zmin bins <$> seq 0 (Z.to_nat CNT)) in Hlook.
    rewrite list_lookup_fmap in Hlook.
    destruct (seq 0 (Z.to_nat CNT) !! i) as [k|] eqn:E; [|discriminate].
    apply lookup_seq in E. destruct E as [-> Hlt].
    injection Hlook as <-. apply grid_edge_range. lia.
Qed.

End GridRounded.

Section RescaleRounded.

Context {U : FloatUnit} {L : FloatLaws U}.

(** The rescaled running sums of positive floats do not decrease and
    end at 1, as long as the sums stay finite. *)
Lemma rescaled_cumsum_fl_spec (bound : R) (N : Z) (pdf : list R) (total : R) :
  tiny <= bound →
  2 * IZR N * bound <= huge →
  (N <= 4294967297)%Z →
  (Z.of_nat (length pdf) <= N)%Z →
  Forall (fun x => 0 < x <= bound ∧ rnd x = x) pdf →
  last (cumsum_fl pdf) = Some total →
  let cdf := map (fun c => rnd (c / total)) (cumsum_fl pdf) in
  0 < total <= huge
  ∧ Forall (fun s => 0 < s <= huge) (cumsum_fl pdf)
  ∧ length cdf = length pdf
  ∧ StronglySorted Rle cdf
  ∧ last cdf = Some 1.
Proof.
  intros Hb Hh HN Hlen Hpdf Ht cdf.
  pose proof (cumsum_fl_bounded bound N pdf Hb Hh HN Hlen Hpdf) as Hfin.
  assert (Htot : 0 < total <= huge).
  { rewrite List.Forall_forall in Hfin. apply Hfin.
    apply list_elem_of_In, last_Some_elem_of. exact Ht. }
  assert (Hpos : Forall (fun x => 0 < x ∧ rnd x = x) pdf).
  { eapply Forall_impl; [exact Hpdf|]. simpl. intros x Hx. tauto. }
  destruct (cumsum_fl_sorted pdf Hpos) as [Hsorted _].
  split; [exact Htot|]. split; [exact Hfin|]. split; [|split].
  - unfold cdf. rewrite length_map. apply cumsum_fl_length.
  - apply ArrayFacts.StronglySorted_map_Rle; [|exact Hsorted].
    intros x y Hxy. apply rnd_monotone.
    apply Rmult_le_compat_r; [|exact Hxy].
    apply Rlt_le, Rinv_0_lt_compat. lra.
  - unfold cdf. rewrite ArrayFacts.last_map, Ht. simpl. f_equal.
    replace (total / total) with 1 by (field; lra). apply rnd_1.
Qed.

End RescaleRounded.

Section TableRounded.

Context {U : FloatUnit} {L : FloatLaws U} `{CosmologyProvider}.

(** The value of [RedshiftDistribution] is a float. *)
Lemma RedshiftDistribution_fl_float (self : population) (z : R) :
  rnd (RedshiftDistribution_fl self z) = RedshiftDistribution_fl self z.
Proof.
  unfold RedshiftDistribution_fl, RedshiftDistribution_base_fl.
  destruct (cls self); apply rnd_idempotent.
Qed.

(** [setup_redshift_cdf] returns and binds the two attributes of the
    table. *)
Lemma setup_redshift_cdf_fl_run (self : population) (zmax zmin : R) (bins : Z) :
  (1 <= bins <= 4294967296)%Z →
  2 * IZR bins * tiny <= zmin →
  zmin + zmax / IZR bins <= zmax →
  2 * zmax <= huge →
  let edges := edges_fl zmax zmin bins in
  let sums := cumsum_fl (map (RedshiftDistribution_fl self) edges) in
  ∃ total,
    last sums = Some total
    ∧ setup_redshift_cdf_fl self zmax zmin bins
      = Ok (setattr (setattr self "redshift_bins" edges)
              "redshift_cdf" (map (fun c => rnd (c / total)) sums)).
Proof.
  intros Hbins Htiny Hone Hhuge edges sums.
  destruct (grid_count_range zmax zmin bins Hbins Htiny Hone Hhuge)
    as ([Hn1 Hn2] & _).
  pose proof (grid_step_pos zmax zmin bins Hbins Htiny Hone Hhuge) as Hsp.
  assert (Hlen : (0 < length sums)%nat).
  { unfold sums, edges, edges_fl.
    rewrite cumsum_fl_length, !length_map, length_seq. lia. }
  destruct (ArrayFacts.last_is_Some sums Hlen) as [total Ht].
  exists total. split; [exact Ht|].
  unfold setup_redshift_cdf_fl, fl_div.
  destruct (Req_dec_T (rnd (IZR bins)) 0) as [E|_].
  { rewrite (float_bins bins Hbins) in E. apply eq_IZR in E. lia. }
  cbn [mbind result_bind].
  change (rnd (zmax / rnd (IZR bins))) with (grid_step zmax bins).
  unfold arange_fl.
  destruct (Req_dec_T (grid_step zmax bins) 0) as [E|_]; [lra|].
  cbn [mbind result_bind].
  change (map _ (seq 0 _)) with edges. fold sums.
  unfold last_item. rewrite Ht. reflexivity.
Qed.

End TableRounded.

Section TableClaim.

Context {U : FloatUnit} {L : FloatLaws U} `{CosmologyProvider}.

(** C4, amended.  In floating-point arithmetic (any rounding that
    satisfies [FloatLaws], binary64 among them), for
    [1 <= bins <= 2^32], [zmin] at least [2*bins] least normal floats,
    [zmax] at least one step [zmax/bins] above [zmin] and at most
    [huge/2], and a redshift distribution that is positive and at most
    [bound] (with [2*(bins+1)*bound <= huge], so that no sum overflows)
    from [zmin] to [zmax*(1 + 2^-16)], [setup_redshift_cdf] returns and
    binds [redshift_bins] to the [n] edges of
    [np.arange(zmin, zmax, zmax/bins)].  [n] is at least 1 and at most
    [bins + 1]; it is below [bins] when [zmin] is two steps or more, and
    [bins] or [bins + 1] when [zmin] is half a step or less.  Edge [i]
    lies within a relative [2^-16] of [zmin + i*zmax/bins]; the edges
    start at [zmin], which is above zero, lie between [zmin] and
    [zmax*(1 + 2^-16)] (the last one can reach or pass [zmax]), and
    increase strictly.  It binds [redshift_cdf] to as many values,
    which do not decrease and end at exactly 1. *)
Theorem setup_redshift_cdf_table
    (self : population) (zmax zmin bound : R) (bins : Z) :
  (1 <= bins <= 4294967296)%Z →
  2 * IZR bins * tiny <= zmin →
  zmin + zmax / IZR bins <= zmax →
  2 * zmax <= huge →
  tiny <= bound →
  2 * IZR (bins + 1) * bound <= huge →
  (∀ z, zmin <= z <= zmax * (1 + / 65536) →
        0 < RedshiftDistribution_fl self z <= bound) →
  let step := zmax / IZR bins in
  let n := grid_count zmax zmin bins in
  ∃ self' edges cdf,
    setup_redshift_cdf_fl self zmax zmin bins = Ok self'
    ∧ getattr self' "redshift_bins" = Ok edges
    ∧ getattr self' "redshift_cdf" = Ok cdf
    ∧ edges = edges_fl zmax zmin bins
    ∧ Z.of_nat (length edges) = n
    ∧ (1 <= n <= bins + 1)%Z
    ∧ (2 * step <= zmin → (n < bins)%Z)
    ∧ (zmin <= step / 2 → (bins <= n)%Z)
    ∧ (∀ i z, edges !! i = Some z →
         (zmin + INR i * step) * (1 - / 65536) <= z
         <= (zmin + INR i * step) * (1 + / 65536))
    ∧ head edges = Some zmin
    ∧ 0 < zmin
    ∧ Forall (fun z => zmin <= z <= zmax * (1 + / 65536)) edges
    ∧ StronglySorted Rlt edges
    ∧ length cdf = length edges
    ∧ StronglySorted Rle cdf
    ∧ last cdf = Some 1.
Proof.
  intros Hbins Htiny Hone Hhuge Hbound Hfinite Hpdf step n.
  destruct (setup_redshift_cdf_fl_run self zmax zmin bins
              Hbins Htiny Hone Hhuge) as (total & Ht & Hrun).
  destruct (edges_fl_spec zmax zmin bins Hbins Htiny Hone Hhuge)
    as (Hlen & Hhead & Hrange & Hsorted & Hnear).
  destruct (grid_count_range zmax zmin bins Hbins Htiny Hone Hhuge)
    as (Hn & Hfew & Hmany).
  destruct (grid_basics zmax zmin bins Hbins Htiny Hone)
    as (_ & Hz0 & _).
  set (edges := edges_fl zmax zmin bins) in *.
  set (pdf := map (RedshiftDistribution_fl self) edges) in *.
  assert (Hfloats : Forall (fun x => 0 < x <= bound ∧ rnd x = x) pdf).
  { apply List.Forall_forall. intros x Hx. apply in_map_iff in Hx.
    destruct Hx as (z & <- & Hzin). split.
    - apply Hpdf. rewrite List.Forall_forall in Hrange. apply Hrange.
      exact Hzin.
    - apply RedshiftDistribution_fl_float. }
  assert (Hcount : (Z.of_nat (length pdf) <= bins + 1)%Z).
  { unfold pdf. rewrite length_map. lia. }
  destruct (rescaled_cumsum_fl_spec bound (bins + 1) pdf total
              Hbound Hfinite ltac:(lia) Hcount Hfloats Ht)
    as (_ & _ & Hclen & Hcs & Hcl).
  eexists _, edges, _. split; [exact Hrun|].
  split. { rewrite getattr_setattr_ne by discriminate. apply getattr_setattr. }
  split. { apply getattr_setattr. }
  split; [reflexivity|].
  split; [exact Hlen|]. split; [exact Hn|]. split; [exact Hfew|].
  split; [exact Hmany|]. split; [exact Hnear|]. split; [exact Hhead|].
  split; [exact Hz0|]. split; [exact Hrange|]. split; [exact Hsorted|].
  split. { rewrite Hclen. unfold pdf. apply length_map. }
  split; [exact Hcs | exact Hcl].
Qed.

End TableClaim.

(** ** The module on concrete collaborators *)

Section Evaluation.

#[local] Existing Instance hubble_law.
#[local] Existing Instance simpson.
#[local] Existing Instance midpoint_source.

Lemma law_NoEvolution (z : R) : law Evol.NoEvolution z = 1.
Proof. unfold law. rewrite EvolFacts.evaluate_eq. reflexivity. Qed.

Lemma reference_RedshiftDistribution (z : R) :
  RedshiftDistribution (reference_population SourcePopulation) z
  = 4 * PI * (z * z).
Proof.
  unfold RedshiftDistribution, RedshiftDistribution_base. simpl.
  rewrite law_NoEvolution. ring.
Qed.

Lemma reference_RedshiftDistribution_pos (z : R) :
  0 < z → 0 < RedshiftDistribution (reference_population SourcePopulation) z.
Proof.
  intros Hz. rewrite reference_RedshiftDistribution.
  pose proof PI_RGT_0. apply Rmult_lt_0_compat; nra.
Qed.

(** Simpson's rule is exact on the reference population. *)
Lemma reference_RedshiftIntegral (zmax : R) :
  quad (fun z => RedshiftDistribution (reference_population SourcePopulation) z)
    0 zmax
  = 4 * PI / 3 * (zmax * zmax * zmax).
Proof.
  unfold quad, simpson. rewrite !reference_RedshiftDistribution. field.
Qed.

Lemma cube_increasing (x y : R) : 0 < x < y → x * x * x < y * y * y.
Proof.
  intros [Hx Hxy].
  assert (0 < (y - x) * (y * y + x * y + x * x))
    by (apply Rmult_lt_0_compat; nra).
  lra.
Qed.

Lemma transient_RedshiftDistribution_witness :
  RedshiftDistribution
    (init TransientSourcePopulation module_cosmology (law Evol.NoEvolution)) 1
  = RedshiftDistribution
      (init SourcePopulation module_cosmology (law Evol.NoEvolution)) 1
    * (1 / (1 + 1)).
Proof.
  apply (transient_RedshiftDistribution module_cosmology
           (law Evol.NoEvolution) 1).
  lra.
Defined.

Lemma flux_integrand_pos (index E0 E : R) :
  0 < E → 0 < flux_integrand index E0 E.
Proof.
  intros HE. unfold flux_integrand.
  apply Rmult_lt_0_compat; [exact HE | apply EvolFacts.fpow_pos].
Qed.

Lemma Lumi2Flux_Flux2Lumi_witness :
  ∃ L w1 F' w2,
    Flux2Lumi (reference_population SourcePopulation)
      1e-8 2.0 1e2 1e7 default_E0 fresh = (Ok L, w1)
    ∧ Lumi2Flux (reference_population SourcePopulation)
        L 2.0 1e2 1e7 default_E0 w1 = (Ok F', w2)
    ∧ F' = 1e-8
    ∧ Rabs (F' - 1e-8) <= 1e-9 * Rabs 1e-8.
Proof.
  apply (Lumi2Flux_Flux2Lumi SourcePopulation module_cosmology
           (law Evol.NoEvolution) 1e-8 2.0 1e2 1e7 default_E0 fresh).
  - unfold default_E0. lra.
  - simpl. lra.
  - unfold quad, simpson.
    pose proof (flux_integrand_pos 2.0 default_E0 1e2 ltac:(lra)).
    pose proof (flux_integrand_pos 2.0 default_E0 ((1e2 + 1e7) / 2)
                  ltac:(lra)).
    pose proof (flux_integrand_pos 2.0 default_E0 1e7 ltac:(lra)).
    nra.
Defined.

(** An antiderivative of the redshift distribution of the reference
    population. *)
Lemma reference_antiderivative (z : R) :
  derivable_pt_lim (fun x => 4 * PI / 3 * (x * x * x)) z
    (RedshiftDistribution (reference_population SourcePopulation) z).
Proof.
  rewrite reference_RedshiftDistribution.
  replace (4 * PI * (z * z)) with (4 * PI / 3 * ((1 * z + z * 1) * z + z * z * 1))
    by field.
  apply derivable_pt_lim_scal.
  apply (derivable_pt_lim_mult (fun x => x * x) (fun x => x)).
  - apply (derivable_pt_lim_mult (fun x => x) (fun x => x));
      apply derivable_pt_lim_id.
  - apply derivable_pt_lim_id.
Qed.

Lemma Nsources_formula_positive_increasing_witness :
  (∃ n, fst (Nsources (reference_population SourcePopulation) 1e-7 0.1 fresh)
        = Ok n ∧ 0 < n)
  ∧ (∃ n1 n2,
        fst (Nsources (reference_population SourcePopulation) 1e-7 0.1 fresh)
        = Ok n1
        ∧ fst (Nsources (reference_population SourcePopulation) 1e-7 0.2 fresh)
          = Ok n2
        ∧ n1 < n2).
Proof.
  destruct (Nsources_formula_positive_increasing
              (reference_population SourcePopulation) 1e-7 eq_refl)
    as [_ Hmono].
  destruct Hmono as [Hpos Hinc].
  - lra.
  - intros z Hz. simpl. rewrite law_NoEvolution. lra.
  - simpl. pose proof PI_RGT_0. nra.
  - intros z Hz. simpl. nra.
  - exists (fun x => 4 * PI / 3 * (x * x * x)). split.
    + intros z _. apply reference_antiderivative.
    + intros z _. rewrite reference_RedshiftIntegral. ring.
  - split.
    + eexists. apply (Hpos 0.1 fresh). lra.
    + apply (Hinc 0.1 0.2 fresh fresh). lra.
Defined.

(** C4, as stated, fails: with the defaults and [zmax = 1] the table has
    9995 edges, not [bins = 10000]. *)
Lemma setup_redshift_cdf_bins_counterexample :
  edge_count (setup_redshift_cdf (reference_population SourcePopulation)
                1 default_zmin default_bins)
  = Some 9995%Z
  ∧ 9995%Z <> default_bins.
Proof.
  split; [|discriminate].
  assert (Hz : 0 < default_zmin < 1) by (unfold default_zmin; lra).
  assert (Hb : (0 < default_bins)%Z) by reflexivity.
  destruct (setup_redshift_cdf_run (reference_population SourcePopulation)
              1 default_zmin default_bins Hz Hb) as (total & _ & Hrun).
  destruct (edges_of_spec 1 default_zmin default_bins Hz Hb) as (Hlen & _).
  rewrite Hrun. unfold edge_count.
  rewrite getattr_setattr_ne by discriminate. rewrite getattr_setattr.
  rewrite Hlen. f_equal. apply Zceil_eq.
  unfold default_zmin, default_bins. lra.
Qed.

Lemma sample_redshift_before_setup_witness :
  fst (sample_redshift (reference_population SourcePopulation) 1 fresh)
  = Raise (AttributeError "redshif_cdf").
Proof.
  apply (sample_redshift_before_setup SourcePopulation module_cosmology
           (law Evol.NoEvolution) 1 fresh).
  lia.
Defined.

(** C2, on the code.  After [setup_redshift_cdf(1.0)] has built the
    table of a new population, [sample_redshift(1)] raises
    [AttributeError]: the table is bound to [redshift_cdf] and the
    sampler reads [redshif_cdf]. *)
Theorem sample_redshift_after_setup_raises :
  ∃ self' cdf,
    setup_redshift_cdf (reference_population SourcePopulation)
      1 default_zmin default_bins = Ok self'
    ∧ getattr self' "redshift_cdf" = Ok cdf
    ∧ getattr self' "redshif_cdf" = Raise (AttributeError "redshif_cdf")
    ∧ fst (sample_redshift self' 1 fresh)
      = Raise (AttributeError "redshif_cdf").
Proof.
  assert (Hz : 0 < default_zmin < 1) by (unfold default_zmin; lra).
  assert (Hb : (0 < default_bins)%Z) by reflexivity.
  destruct (setup_redshift_cdf_run (reference_population SourcePopulation)
              1 default_zmin default_bins Hz Hb) as (total & _ & Hrun).
  eexists _, _. split; [exact Hrun|].
  split; [apply getattr_setattr|].
  split; [reflexivity|].
  apply (sample_redshift_after_setup SourcePopulation module_cosmology
           (law Evol.NoEvolution) 1 default_zmin default_bins);
    [exact Hrun | lia].
Qed.

End Evaluation.

(** ** Exact arithmetic *)

Lemma exact_laws : FloatLaws exact_unit.
Proof.
  split; simpl.
  - intros x y Hxy. exact Hxy.
  - reflexivity.
  - reflexivity.
  - intros x _. rewrite Rminus_diag, Rabs_R0. lra.
  - lra.
  - lra.
  - lra.
Qed.

Section ExactEvaluation.

#[local] Existing Instance hubble_law.
#[local] Existing Instance exact_unit.
#[local] Existing Instance exact_laws.

Lemma cumsum_fl_from_exact (acc : R) (xs : list R) :
  cumsum_fl_from acc xs = cumsum_from acc xs.
Proof.
  revert acc. induction xs as [|x xs IH]; intros acc; [reflexivity|].
  cbn [cumsum_fl_from cumsum_from]. change (rnd (acc + x)) with (acc + x).
  rewrite IH. reflexivity.
Qed.

Lemma cumsum_fl_exact (xs : list R) : cumsum_fl xs = cumsum xs.
Proof.
  destruct xs as [|x xs]; [reflexivity|].
  unfold cumsum, cumsum_fl. cbn [cumsum_from].
  rewrite Rplus_0_l, cumsum_fl_from_exact. reflexivity.
Qed.

Lemma arange_fl_exact (start stop step : R) :
  arange_fl start stop step = arange start stop step.
Proof.
  unfold arange_fl, arange.
  destruct (Req_dec_T step 0) as [E|E]; [reflexivity|]. f_equal.
  apply map_ext. intros [|[|i]].
  - simpl. ring.
  - simpl. change (rnd (start + step)) with (start + step). ring.
  - unfold arange_fl_item.
    change (rnd (start + rnd (INR (S (S i)) * rnd (rnd (start + step) - start))))
      with (start + INR (S (S i)) * (start + step - start)).
    ring.
Qed.

(** In exact arithmetic the rounded [setup_redshift_cdf] is the
    real-number one. *)
Lemma setup_redshift_cdf_fl_exact
    (self : population) (zmax zmin : R) (bins : Z) :
  setup_redshift_cdf_fl self zmax zmin bins
  = setup_redshift_cdf self zmax zmin bins.
Proof.
  unfold setup_redshift_cdf_fl, setup_redshift_cdf, fl_div, py_div.
  change (rnd (IZR bins)) with (IZR bins).
  destruct (Req_dec_T (IZR bins) 0) as [E|E]; [reflexivity|].
  cbn [mbind result_bind].
  change (rnd (zmax / IZR bins)) with (zmax / IZR bins).
  rewrite arange_fl_exact.
  destruct (arange zmin zmax (zmax / IZR bins)) as [edges|e]; [|reflexivity].
  cbn [mbind result_bind]. rewrite cumsum_fl_exact.
  change (RedshiftDistribution_fl self) with (RedshiftDistribution self).
  destruct (last_item _) as [total|e]; reflexivity.
Qed.

Lemma reference_RedshiftDistribution_fl_range (z m : R) :
  0 < z <= m →
  0 < RedshiftDistribution_fl (reference_population SourcePopulation) z
  <= 16 * (m * m).
Proof.
  intros Hz.
  change (RedshiftDistribution_fl (reference_population SourcePopulation) z)
    with (RedshiftDistribution (reference_population SourcePopulation) z).
  rewrite reference_RedshiftDistribution.
  pose proof PI_RGT_0 as Hpi. pose proof PI_4 as Hpi4.
  assert (Hzz : 0 < z * z) by (apply Rmult_lt_0_compat; lra).
  assert (Hzz2 : z * z <= m * m) by (apply Rmult_le_compat; lra).
  assert (Hp : 0 < PI * (z * z)) by (apply Rmult_lt_0_compat; lra).
  assert (Hp2 : PI * (z * z) <= 4 * (m * m)) by (apply Rmult_le_compat; lra).
  lra.
Qed.

Lemma setup_redshift_cdf_table_witness :
  ∃ self' edges cdf,
    setup_redshift_cdf_fl (reference_population SourcePopulation)
      1 default_zmin default_bins = Ok self'
    ∧ getattr self' "redshift_bins" = Ok edges
    ∧ getattr self' "redshift_cdf" = Ok cdf
    ∧ (Z.of_nat (length edges) < default_bins)%Z
    ∧ StronglySorted Rlt edges
    ∧ StronglySorted Rle cdf
    ∧ last cdf = Some 1.
Proof.
  destruct (setup_redshift_cdf_table (reference_population SourcePopulation)
              1 default_zmin (16 * (2 * 2)) default_bins)
    as (self' & edges & cdf & Hrun & Hedges & Hcdf & _ & Hlen & _ & Hfew
        & _ & _ & _ & _ & _ & Hinc & _ & Hsorted & Hlast).
  - unfold default_bins. lia.
  - unfold default_bins, default_zmin. simpl. lra.
  - unfold default_bins, default_zmin. lra.
  - simpl. lra.
  - simpl. lra.
  - unfold default_bins. rewrite plus_IZR. simpl. lra.
  - intros z Hz. apply reference_RedshiftDistribution_fl_range.
    unfold default_zmin in Hz. lra.
  - exists self', edges, cdf.
    split; [exact Hrun|]. split; [exact Hedges|]. split; [exact Hcdf|].
    split; [|split; [exact Hinc|split; [exact Hsorted|exact Hlast]]].
    rewrite Hlen. apply Hfew. unfold default_bins, default_zmin. lra.
Defined.

End ExactEvaluation.

(** * Further properties *)

(** ** The shape of the evolution laws *)

Module LawFacts.
Import Evol.

Lemma ln_10_pos : 0 < ln 10.
Proof. rewrite <- ln_1. apply ln_increasing; lra. Qed.

(** [10 ** np.log10(y)] is [y], for a positive [y]. *)
Lemma fpow_10_log10 (y : R) : 0 < y → fpow 10 (log10 y) = y.
Proof.
  intros Hy. unfold fpow, Rpower, log10.
  replace (ln y / ln 10 * ln 10) with (ln y)
    by (field; pose proof ln_10_pos; lra).
  apply exp_ln. exact Hy.
Qed.

(** A negative power is strictly decreasing in a positive base. *)
Lemma fpow_neg_decreasing (a b q : R) :
  0 < a < b → q < 0 → fpow b q < fpow a q.
Proof.
  intros [Ha Hab] Hq. unfold fpow, Rpower. apply exp_increasing.
  pose proof (ln_increasing a b Ha Hab). nra.
Qed.

Lemma fpow_10_lt (y z : R) : y < z → fpow 10 y < fpow 10 z.
Proof. intros Hyz. apply Rpower_lt; lra. Qed.

(** The three segments of [HopkinsBeacom2006StarFormationRate]. *)
Lemma HB_low (x : R) :
  x < 0.30963 →
  parametrization_body HopkinsBeacom2006StarFormationRate x
  = Ok (fpow 10 (3.28 * x - 1.82)).
Proof. intros Hx. simpl. destruct (Rlt_dec x 0.30963); [reflexivity | lra]. Qed.

Lemma HB_mid (x : R) :
  0.30963 <= x < 0.73878 →
  parametrization_body HopkinsBeacom2006StarFormationRate x
  = Ok (fpow 10 (-0.26 * x - 0.724)).
Proof.
  intros Hx. simpl. destruct (Rlt_dec x 0.30963); [lra|].
  destruct (sumbool_and _ _ _ _ _ _) as [_|[?|?]]; [reflexivity | lra | lra].
Qed.

Lemma HB_high (x : R) :
  0.73878 <= x →
  parametrization_body HopkinsBeacom2006StarFormationRate x
  = Ok (fpow 10 (-8.0 * x + 4.99)).
Proof.
  intros Hx. simpl. destruct (Rlt_dec x 0.30963); [lra|].
  destruct (sumbool_and _ _ _ _ _ _) as [[_ ?]|_]; [lra | reflexivity].
Qed.

End LawFacts.

(** X1.  As a function of [x = log10(1+z)], on the range [[0, 1.05]] of
    the redshifts 0 to 10 and for arguments at least [1e-9] apart, the
    law of Hopkins and Beacom rises strictly below the first break
    [0.30963] and falls strictly from it on, also across the second
    break. *)
Theorem HB2006_rises_then_falls (x y : R) :
  0 <= x →
  x + 1e-9 <= y →
  y <= 1.05 →
  ∃ vx vy,
    Evol.parametrization_body Evol.HopkinsBeacom2006StarFormationRate x = Ok vx
    ∧ Evol.parametrization_body Evol.HopkinsBeacom2006StarFormationRate y
      = Ok vy
    ∧ (y < 0.30963 → vx < vy)
    ∧ (0.30963 <= x → vy < vx).
Proof.
  intros Hx0 Hxy Hy1.
  destruct (Rlt_dec y 0.30963) as [Hy|Hy].
  - do 2 eexists. rewrite !LawFacts.HB_low by lra.
    repeat split; [|lra]. intros _. apply LawFacts.fpow_10_lt. lra.
  - destruct (Rlt_dec x 0.30963) as [Hx|Hx].
    + rewrite LawFacts.HB_low by lra.
      destruct (Rlt_dec y 0.73878);
        [rewrite LawFacts.HB_mid by lra | rewrite LawFacts.HB_high by lra];
        do 2 eexists; repeat split; lra.
    + destruct (Rlt_dec x 0.73878) as [Hx'|Hx'];
        [rewrite (LawFacts.HB_mid x) by lra
        | rewrite (LawFacts.HB_high x) by lra];
        (destruct (Rlt_dec y 0.73878);
         [rewrite (LawFacts.HB_mid y) by lra
         | rewrite (LawFacts.HB_high y) by lra]);
        do 2 eexists; repeat split; try lra;
        intros _; apply LawFacts.fpow_10_lt; lra.
Qed.

Lemma HB2006_rises_then_falls_witness :
  ∃ vx vy,
    Evol.parametrization_body Evol.HopkinsBeacom2006StarFormationRate 0.5
    = Ok vx
    ∧ Evol.parametrization_body Evol.HopkinsBeacom2006StarFormationRate 1
      = Ok vy
    ∧ vy < vx.
Proof.
  destruct (HB2006_rises_then_falls 0.5 1 ltac:(lra) ltac:(lra) ltac:(lra))
    as (vx & vy & Hx & Hy & _ & Hfall).
  exists vx, vy. repeat split; [exact Hx | exact Hy | apply Hfall; lra].
Defined.



(** X3.  For a redshift [z] from 0 to 10 the rate of
    [CandelsClash2015SNRate] agrees with
    [0.015 (1+z)^5 / (((1+z)/1.5)^6.1 + 1)] to a relative tolerance of
    [1e-9]: the [10 ** x] of its parametrization undoes the [log10] of
    the call, exactly so in real arithmetic. *)
Theorem CC2015_in_one_plus_z (z : R) :
  0 <= z <= 10 →
  let closed := 0.015 * fpow (1 + z) 5.0 / (fpow ((1 + z) / 1.5) 6.1 + 1) in
  ∃ v,
    Evol.evaluate (Evol.Instance Evol.CandelsClash2015SNRate) z = Ok v
    ∧ 0 < closed
    ∧ Rabs (v - closed) <= 1e-9 * closed.
Proof.
  intros Hz closed.
  assert (Hclosed : 0 < closed).
  { unfold closed. apply Rdiv_lt_0_compat.
    - apply Rmult_lt_0_compat; [lra | apply EvolFacts.fpow_pos].
    - pose proof (EvolFacts.fpow_pos ((1 + z) / 1.5) 6.1). lra. }
  exists closed. split; [|split; [exact Hclosed|]].
  - rewrite EvolFacts.evaluate_eq. simpl.
    rewrite LawFacts.fpow_10_log10 by lra. reflexivity.
  - rewrite Rminus_diag, Rabs_R0. lra.
Qed.

Lemma CC2015_in_one_plus_z_witness :
  ∃ v,
    Evol.evaluate (Evol.Instance Evol.CandelsClash2015SNRate) 0 = Ok v
    ∧ Rabs (v - 0.015 * fpow (1 + 0) 5.0 / (fpow ((1 + 0) / 1.5) 6.1 + 1))
      <= 1e-9 * (0.015 * fpow (1 + 0) 5.0 / (fpow ((1 + 0) / 1.5) 6.1 + 1)).
Proof.
  destruct (CC2015_in_one_plus_z 0 ltac:(lra)) as (v & Hv & _ & Hclose).
  exists v. split; [exact Hv | exact Hclose].
Defined.

(** X4.  For a redshift [z] from 0 to 10 the rate of
    [YukselEtAl2008StarFormationRate] is positive and lies strictly
    below each of the three power laws it joins: [r0 (1+z)^3.4],
    [r0 ((1+z)/B)^-0.3] and [r0 ((1+z)/C)^-3.5]. *)
Theorem YMKBH2008_below_its_power_laws (z : R) :
  0 <= z <= 10 →
  ∃ v,
    Evol.evaluate (Evol.Instance Evol.YukselEtAl2008StarFormationRate) z
    = Ok v
    ∧ 0 < v
    ∧ v < 0.02 * fpow (1 + z) 3.4
    ∧ v < 0.02 * fpow ((1 + z) / 5160.63662037) (-0.3)
    ∧ v < 0.02 * fpow ((1 + z) / 9.06337604231) (-3.5).
Proof.
  intros Hz. rewrite EvolFacts.evaluate_eq. simpl.
  set (x := 1 + z).
  set (t1 := fpow x (3.4 * -10)).
  set (t2 := fpow (x / 5160.63662037) (-0.3 * -10)).
  set (t3 := fpow (x / 9.06337604231) (-3.5 * -10)).
  pose proof (EvolFacts.fpow_pos x (3.4 * -10)) as H1.
  pose proof (EvolFacts.fpow_pos (x / 5160.63662037) (-0.3 * -10)) as H2.
  pose proof (EvolFacts.fpow_pos (x / 9.06337604231) (-3.5 * -10)) as H3.
  fold t1 in H1. fold t2 in H2. fold t3 in H3.
  assert (Hq : 1 / -10 < 0) by lra.
  assert (Hback : ∀ b p, fpow (fpow b (p * -10)) (1 / -10) = fpow b p).
  { intros b p. unfold fpow. rewrite Rpower_mult. f_equal. field. }
  eexists. split; [reflexivity|]. split; [|split; [|split]].
  - apply Rmult_lt_0_compat; [lra | apply EvolFacts.fpow_pos].
  - rewrite <- (Hback x 3.4). fold t1.
    apply Rmult_lt_compat_l; [lra|].
    apply LawFacts.fpow_neg_decreasing; lra.
  - rewrite <- (Hback (x / 5160.63662037) (-0.3)). fold t2.
    apply Rmult_lt_compat_l; [lra|].
    apply LawFacts.fpow_neg_decreasing; lra.
  - rewrite <- (Hback (x / 9.06337604231) (-3.5)). fold t3.
    apply Rmult_lt_compat_l; [lra|].
    apply LawFacts.fpow_neg_decreasing; lra.
Qed.

Lemma YMKBH2008_below_its_power_laws_witness :
  ∃ v,
    Evol.evaluate (Evol.Instance Evol.YukselEtAl2008StarFormationRate) 1
    = Ok v
    ∧ 0 < v
    ∧ v < 0.02 * fpow (1 + 1) 3.4.
Proof.
  destruct (YMKBH2008_below_its_power_laws 1 ltac:(lra))
    as (v & Hv & Hpos & Hlow & _).
  exists v. repeat split; assumption.
Defined.


(** ** Populations: construction, table and sampler *)

Section TableFacts.

Context `{CosmologyProvider, Integrator, RandomSource}.

Lemma law_variant_pos (k : Evol.class) (z : R) :
  In k Evol.variants → 0 < law k z.
Proof.
  intros Hk. unfold law. rewrite EvolFacts.evaluate_eq.
  unfold Evol.variants in Hk. simpl in Hk.
  destruct Hk as [<-|[<-|[<-|[<-|[]]]]]; simpl.
  - lra.
  - destruct (Rlt_dec _ _); [|destruct (sumbool_and _ _ _ _ _ _)];
      apply EvolFacts.fpow_pos.
  - apply Rmult_lt_0_compat; [lra | apply EvolFacts.fpow_pos].
  - apply Rdiv_lt_0_compat.
    + apply Rmult_lt_0_compat; [lra | apply EvolFacts.fpow_pos].
    + pose proof (EvolFacts.fpow_pos (fpow 10 (log10 (1 + z)) / 1.5) 6.1).
      lra.
Qed.

(** X6.  With any of the four laws as evolution, the redshift
    distribution of a population of either class is strictly positive at
    every redshift [z] from 0 to 10 at which the differential comoving
    volume is at least 1. *)
Theorem RedshiftDistribution_positive
    (c : pop_class) (cosmo : gmap string R) (k : Evol.class) (z : R) :
  In k Evol.variants →
  0 <= z <= 10 →
  1 <= diff_comoving_volume z (set_omega_k_0 cosmo) →
  0 < RedshiftDistribution (init c cosmo (law k)) z.
Proof.
  intros Hk Hz Hv.
  assert (Hbase : 0 < RedshiftDistribution_base (init c cosmo (law k)) z).
  { unfold RedshiftDistribution_base. cbn [init evolution cosmology].
    pose proof PI_RGT_0. pose proof (law_variant_pos k z Hk) as Hl.
    apply Rmult_lt_0_compat; [|lra].
    apply Rmult_lt_0_compat; [lra | exact Hl]. }
  unfold RedshiftDistribution. destruct c; simpl; [exact Hbase|].
  apply Rdiv_lt_0_compat; lra.
Qed.

(** X7.  [setup_redshift_cdf] raises [ZeroDivisionError] when [bins] is
    0, and [IndexError] when [bins] is positive and the horizon [zmax] is
    positive but not above [zmin]: the table is then empty and has no
    last entry.  No attribute is bound in either case. *)
Theorem setup_redshift_cdf_errors
    (self : population) (zmax zmin : R) (bins : Z) :
  (bins = 0%Z →
   setup_redshift_cdf self zmax zmin bins = Raise ZeroDivisionError)
  ∧ ((0 < bins)%Z → 0 < zmax <= zmin →
     setup_redshift_cdf self zmax zmin bins = Raise IndexError).
Proof.
  unfold setup_redshift_cdf, py_div, arange. split.
  - intros ->. destruct (Req_dec_T (IZR 0) 0) as [_|E]; [reflexivity|].
    contradiction E. reflexivity.
  - intros Hb Hz.
    assert (Hbr : 0 < IZR bins) by (apply IZR_lt; exact Hb).
    destruct (Req_dec_T (IZR bins) 0) as [E|_]; [lra|].
    cbn [mbind result_bind].
    assert (Hs : 0 < zmax / IZR bins) by (apply Rdiv_lt_0_compat; lra).
    destruct (Req_dec_T (zmax / IZR bins) 0) as [E|_]; [lra|].
    cbn [mbind result_bind].
    assert (Hn : (Zceil ((zmax - zmin) / (zmax / IZR bins)) <= 0)%Z).
    { apply le_IZR. apply Rle_trans with (IZR (Zceil 0)).
      - apply IZR_le, Zceil_le.
        apply Rmult_le_reg_r with (zmax / IZR bins); [exact Hs|].
        unfold Rdiv at 1. rewrite Rmult_assoc, Rinv_l by lra. lra.
      - rewrite (Zceil_eq 0 0) by lra. lra. }
    replace (Z.to_nat _) with 0%nat by lia.
    reflexivity.
Qed.

(** What a call of [setup_redshift_cdf] that returns has made of
    [self]. *)
Lemma setup_redshift_cdf_inv
    (self self' : population) (zmax zmin : R) (bins : Z) :
  setup_redshift_cdf self zmax zmin bins = Ok self' →
  ∃ edges cdf,
    self' = setattr (setattr self "redshift_bins" edges) "redshift_cdf" cdf.
Proof.
  unfold setup_redshift_cdf. intros Hrun.
  destruct (py_div zmax (IZR bins)) as [step|]; [|discriminate].
  cbn [mbind result_bind] in Hrun.
  destruct (arange zmin zmax step) as [edges|]; [|discriminate].
  cbn [mbind result_bind] in Hrun.
  destruct (last_item _) as [total|]; [|discriminate].
  cbn [mbind result_bind] in Hrun. injection Hrun as <-. eauto.
Qed.

Lemma RedshiftDistribution_setattr
    (self : population) (name : string) (v : list R) :
  RedshiftDistribution (setattr self name v) = RedshiftDistribution self.
Proof. reflexivity. Qed.

(** X8.  A call of [setup_redshift_cdf] that returns changes no query:
    on [self] after the call, [RedshiftDistribution], [Nsources],
    [Flux2Lumi], [Lumi2Flux] and [StandardCandleSources] return what they
    returned before, and [dL1] is still the luminosity distance at 1. *)
Theorem setup_redshift_cdf_keeps_queries
    (self self' : population) (zmax zmin : R) (bins : Z) :
  setup_redshift_cdf self zmax zmin bins = Ok self' →
  (dL1 self = LuminosityDistance self 1 →
   dL1 self' = LuminosityDistance self' 1)
  ∧ (∀ z, RedshiftDistribution self' z = RedshiftDistribution self z)
  ∧ (∀ density z w, Nsources self' density z w = Nsources self density z w)
  ∧ (∀ F index emin emax E0 w,
       Flux2Lumi self' F index emin emax E0 w
       = Flux2Lumi self F index emin emax E0 w)
  ∧ (∀ L index emin emax E0 w,
       Lumi2Flux self' L index emin emax E0 w
       = Lumi2Flux self L index emin emax E0 w)
  ∧ (∀ F density z index w,
       StandardCandleSources self' F density z index w
       = StandardCandleSources self F density z index w).
Proof.
  intros Hrun.
  destruct (setup_redshift_cdf_inv _ _ _ _ _ Hrun) as (edges & cdf & ->).
  repeat split; try reflexivity. intros Hd. exact Hd.
Qed.

(** Building the table again takes nothing from the table built before. *)
Lemma setup_redshift_cdf_setattr
    (self : population) (edges cdf : list R) (zmax zmin : R) (bins : Z) :
  setup_redshift_cdf
    (setattr (setattr self "redshift_bins" edges) "redshift_cdf" cdf)
    zmax zmin bins
  = setup_redshift_cdf self zmax zmin bins.
Proof.
  unfold setup_redshift_cdf.
  destruct (py_div zmax (IZR bins)) as [step|]; [|reflexivity].
  cbn [mbind result_bind].
  destruct (arange zmin zmax step) as [es|]; [|reflexivity].
  cbn [mbind result_bind]. rewrite !RedshiftDistribution_setattr.
  destruct (last_item _) as [total|]; [|reflexivity].
  cbn [mbind result_bind]. f_equal. unfold setattr.
  cbn [cls _zlocal Mpc2cm GeV_per_sec_2_ergs_per_year evolution cosmology
       dL1 late_attrs].
  f_equal.
  rewrite (insert_insert_ne _ "redshift_bins" "redshift_cdf")
    by discriminate.
  rewrite !insert_insert_eq. reflexivity.
Qed.

(** X9.  Building the table again replaces it: after a call of
    [setup_redshift_cdf] that returned, a second call gives the object
    that the second call alone would have given. *)
Theorem setup_redshift_cdf_rebuild
    (self self1 : population) (zmax1 zmin1 : R) (bins1 : Z)
    (zmax2 zmin2 : R) (bins2 : Z) :
  setup_redshift_cdf self zmax1 zmin1 bins1 = Ok self1 →
  setup_redshift_cdf self1 zmax2 zmin2 bins2
  = setup_redshift_cdf self zmax2 zmin2 bins2.
Proof.
  intros Hrun.
  destruct (setup_redshift_cdf_inv _ _ _ _ _ Hrun) as (edges & cdf & ->).
  apply setup_redshift_cdf_setattr.
Qed.

End TableFacts.

Module CumsumFacts.

(** Every partial sum of positive terms is above the start. *)
Lemma cumsum_from_above (acc : R) (xs : list R) :
  Forall (fun x => 0 < x) xs →
  Forall (fun c => acc < c) (cumsum_from acc xs).
Proof.
  intros Hpos. revert acc.
  induction Hpos as [|x xs Hx _ IH]; intros acc; simpl; constructor.
  - lra.
  - eapply Forall_impl; [apply IH|]. simpl. intros c Hc. lra.
Qed.

(** The last entry of a non-decreasing array bounds every entry. *)
Lemma sorted_below_last (xs : list R) (t : R) :
  StronglySorted Rle xs → last xs = Some t → Forall (fun c => c <= t) xs.
Proof.
  intros Hs. induction Hs as [|x xs Hs IH Hx]; intros Hl; constructor.
  - destruct xs as [|y ys]; [injection Hl as ->; lra|].
    rewrite List.Forall_forall in Hx. apply Hx.
    change (last (y :: ys) = Some t) in Hl.
    apply last_Some_elem_of in Hl. apply list_elem_of_In. exact Hl.
  - destruct xs as [|y ys]; [constructor|]. apply IH. exact Hl.
Qed.

End CumsumFacts.

Section RoundedSamplerFacts.

Context {U : FloatUnit} {L : FloatLaws U} `{CosmologyProvider}.

(** X10.  In floating-point arithmetic, under the conditions of a
    well-formed table ([1 <= bins <= 2^32], [zmin] at least [2*bins]
    least normal floats, [zmax] at least one step above [zmin] and at
    most [huge/2], a redshift distribution that is positive and at most
    [bound] from [zmin] to [zmax*(1 + 2^-16)], with
    [2*(bins+1)*bound <= huge]), every entry of the cumulative table
    that [setup_redshift_cdf] binds lies in [[0, 1]]. *)
Theorem setup_redshift_cdf_unit_interval
    (self : population) (zmax zmin bound : R) (bins : Z) :
  (1 <= bins <= 4294967296)%Z →
  2 * IZR bins * tiny <= zmin →
  zmin + zmax / IZR bins <= zmax →
  2 * zmax <= huge →
  tiny <= bound →
  2 * IZR (bins + 1) * bound <= huge →
  (∀ z, zmin <= z <= zmax * (1 + / 65536) →
        0 < RedshiftDistribution_fl self z <= bound) →
  ∃ self' cdf,
    setup_redshift_cdf_fl self zmax zmin bins = Ok self'
    ∧ getattr self' "redshift_cdf" = Ok cdf
    ∧ Forall (fun c => 0 <= c <= 1) cdf.
Proof.
  intros Hbins Htiny Hone Hhuge Hbound Hfinite Hpdf.
  destruct (setup_redshift_cdf_fl_run self zmax zmin bins
              Hbins Htiny Hone Hhuge) as (total & Ht & Hrun).
  destruct (edges_fl_spec zmax zmin bins Hbins Htiny Hone Hhuge)
    as (Hlen & _ & Hrange & _).
  destruct (grid_count_range zmax zmin bins Hbins Htiny Hone Hhuge)
    as (Hn & _).
  set (edges := edges_fl zmax zmin bins) in *.
  set (pdf := map (RedshiftDistribution_fl self) edges) in *.
  assert (Hfloats : Forall (fun x => 0 < x <= bound ∧ rnd x = x) pdf).
  { apply List.Forall_forall. intros x Hx. apply in_map_iff in Hx.
    destruct Hx as (z & <- & Hzin). split.
    - apply Hpdf. rewrite List.Forall_forall in Hrange. apply Hrange.
      exact Hzin.
    - apply RedshiftDistribution_fl_float. }
  assert (Hcount : (Z.of_nat (length pdf) <= bins + 1)%Z).
  { unfold pdf. rewrite length_map. lia. }
  destruct (rescaled_cumsum_fl_spec bound (bins + 1) pdf total
              Hbound Hfinite ltac:(lia) Hcount Hfloats Ht)
    as (Htot & Hsums & _).
  assert (Hpos : Forall (fun x => 0 < x ∧ rnd x = x) pdf).
  { eapply Forall_impl; [exact Hfloats|]. simpl. intros x Hx. tauto. }
  destruct (cumsum_fl_sorted pdf Hpos) as [Hsorted _].
  pose proof (CumsumFacts.sorted_below_last _ _ Hsorted Ht) as Hup.
  eexists _, _. split; [exact Hrun|]. split; [apply getattr_setattr|].
  apply List.Forall_forall. intros c Hc. apply in_map_iff in Hc.
  destruct Hc as (s & <- & Hs).
  rewrite List.Forall_forall in Hup, Hsums.
  specialize (Hup s Hs). specialize (Hsums s Hs).
  assert (Hratio : 0 <= s / total <= 1).
  { split.
    - apply Rlt_le, Rdiv_lt_0_compat; lra.
    - apply Rmult_le_reg_r with total; [lra|].
      unfold Rdiv. rewrite Rmult_assoc, Rinv_l by lra. lra. }
  split.
  - rewrite <- rnd_0. apply rnd_monotone. lra.
  - rewrite <- rnd_1. apply rnd_monotone. lra.
Qed.

End RoundedSamplerFacts.

Section SamplerFacts.

Context `{CosmologyProvider, Integrator, RandomSource}.

Lemma built_from_no_redshif_cdf
    (c : pop_class) (cosmo : gmap string R) (evol : R → R)
    (self : population) :
  built_from (init c cosmo evol) self →
  late_attrs self !! "redshif_cdf" = None.
Proof.
  intros Hb. induction Hb as [|s s' zmax zmin bins _ IH Hrun].
  - unfold init. simpl. apply lookup_empty.
  - rewrite (setup_redshift_cdf_attrs _ _ _ _ _ "redshif_cdf" Hrun)
      by discriminate.
    exact IH.
Qed.

(** X11.  On a population built by [__init__], whatever calls of
    [setup_redshift_cdf] have returned on it since, [sample_redshift]
    never returns: for [N >= 0] it raises [AttributeError] for
    [redshif_cdf], and for [N < 0] the generator refuses the count with
    [ValueError]. *)
Theorem sample_redshift_never_returns
    (c : pop_class) (cosmo : gmap string R) (evol : R → R)
    (self : population) (N : Z) (w : world) :
  built_from (init c cosmo evol) self →
  ((0 <= N)%Z →
   fst (sample_redshift self N w) = Raise (AttributeError "redshif_cdf"))
  ∧ ((N < 0)%Z → fst (sample_redshift self N w) = Raise ValueError).
Proof.
  intros Hb. pose proof (built_from_no_redshif_cdf c cosmo evol self Hb) as Hm.
  split.
  - intros HN. apply sample_redshift_missing; assumption.
  - intros HN. unfold sample_redshift. run_M.
    destruct (Z.eqb_spec N 1); [lia|].
    destruct (Z.ltb_spec N 0); [reflexivity | lia].
Qed.

(** X12.  A call of [sample_redshift] that raises [AttributeError] has
    drawn its variates first: the generator has advanced by one variate
    when [N] is 1 and by [N] variates otherwise, and no integration has
    been asked for. *)
Theorem sample_redshift_draws_before_raising
    (c : pop_class) (cosmo : gmap string R) (evol : R → R)
    (self : population) (N : Z) (w : world) :
  built_from (init c cosmo evol) self →
  (0 <= N)%Z →
  drawn (snd (sample_redshift self N w))
  = (drawn w + (if Z.eqb N 1 then 1 else Z.to_nat N))%nat
  ∧ quad_log (snd (sample_redshift self N w)) = quad_log w.
Proof.
  intros Hb HN.
  pose proof (built_from_no_redshif_cdf c cosmo evol self Hb) as Hm.
  unfold sample_redshift, getattr. run_M. rewrite Hm.
  destruct (Z.eqb N 1); simpl; [split; [lia | reflexivity]|].
  destruct (Z.ltb_spec N 0); [lia|]. simpl. split; reflexivity.
Qed.

End SamplerFacts.

(** ** Counts, luminosities and standard candles *)

Section QueryFacts.

Context `{CosmologyProvider, Integrator, RandomSource}.

(** X13.  When the redshift integral to the horizon is zero, [Nsources]
    raises [ZeroDivisionError], after both integrations were made. *)
Theorem Nsources_ZeroDivisionError
    (self : population) (density zmax : R) (w : world) :
  let rd := fun z => RedshiftDistribution self z in
  quad rd 0 zmax = 0 →
  Nsources self density zmax w
  = (Raise ZeroDivisionError,
     World (quad_log w
            ++ [QuadCall rd 0 (_zlocal self); QuadCall rd 0 zmax])
       (drawn w)).
Proof.
  intros rd Hzero. unfold Nsources, RedshiftIntegral. run_M. simpl.
  fold rd. destruct (Req_dec_T (quad rd 0 zmax) 0) as [_|E];
    [|contradiction].
  rewrite <- app_assoc. reflexivity.
Qed.

(** X14.  At the local horizon [zmax = _zlocal] the count is the density
    times the comoving volume at [_zlocal], whenever the redshift
    integral to [_zlocal] is not zero. *)
Theorem Nsources_at_zlocal (self : population) (density : R) (w : world) :
  quad (fun z => RedshiftDistribution self z) 0 (_zlocal self) <> 0 →
  fst (Nsources self density (_zlocal self) w)
  = Ok (density * comoving_volume (_zlocal self) (cosmology self)).
Proof.
  intros Hne. rewrite Nsources_run by exact Hne. simpl. f_equal.
  field. exact Hne.
Qed.


Lemma flux_integrand_abs (index E0 : R) :
  flux_integrand (- index) E0 = flux_integrand index E0.
Proof. unfold flux_integrand. rewrite Rabs_Ropp. reflexivity. Qed.

Lemma candle_integrand_abs (self : population) (index shift norm : R) :
  candle_integrand self (- index) shift norm
  = candle_integrand self index shift norm.
Proof. unfold candle_integrand. rewrite Rabs_Ropp. reflexivity. Qed.

(** X16.  The sign of the spectral index is ignored: [Flux2Lumi],
    [Lumi2Flux] and [StandardCandleSources] of both classes do for
    [-index] exactly what they do for [index]. *)
Theorem spectral_index_sign_ignored
    (self : population) (x index emin emax E0 density zmax : R) (w : world) :
  Flux2Lumi self x (- index) emin emax E0 w
  = Flux2Lumi self x index emin emax E0 w
  ∧ Lumi2Flux self x (- index) emin emax E0 w
    = Lumi2Flux self x index emin emax E0 w
  ∧ StandardCandleSources self x density zmax (- index) w
    = StandardCandleSources self x density zmax index w.
Proof.
  unfold Flux2Lumi, Lumi2Flux, StandardCandleSources,
    StandardCandleSources_base, StandardCandleSources_transient.
  rewrite flux_integrand_abs.
  repeat split; try reflexivity.
  destruct (cls self); run_M;
    destruct (RedshiftIntegral self zmax w) as [[norm|e] w1];
    try reflexivity;
    destruct (Nsources self density zmax w1) as [[Ntotal|e] w2];
    try reflexivity;
    rewrite candle_integrand_abs; reflexivity.
Qed.


End QueryFacts.

Section CandleFacts.

Context `{CosmologyProvider, Integrator, RandomSource}.

(** The value of [StandardCandleSources] when the redshift integral to
    the horizon is not zero. *)
Lemma StandardCandleSources_run
    (self : population) (fluxnorm density zmax index : R) (w : world) :
  let rd := fun z => RedshiftDistribution self z in
  let norm := quad rd 0 zmax in
  let Ntotal :=
    density * comoving_volume (_zlocal self) (cosmology self)
    / (quad rd 0 (_zlocal self) / norm) in
  norm <> 0 →
  fst (StandardCandleSources self fluxnorm density zmax index w)
  = Ok (all_sky (cls self) fluxnorm / Ntotal / sq (dL1 self)
        / quad (fun z => candle_kernel self index
                           (exponent_shift (cls self)) z / norm) 0 10).
Proof.
  intros rd norm Ntotal Hne.
  unfold StandardCandleSources, StandardCandleSources_base,
    StandardCandleSources_transient, Nsources, RedshiftIntegral,
    exponent_shift, all_sky.
  destruct (cls self); simpl; run_M; simpl; fold rd; fold norm;
    (destruct (Req_dec_T norm 0) as [E|_]; [contradiction|]);
    reflexivity.
Qed.



End CandleFacts.

(** ** The further properties on concrete collaborators *)

Section FurtherEvaluation.

#[local] Existing Instance hubble_law.
#[local] Existing Instance simpson.
#[local] Existing Instance midpoint_source.

Lemma reference_setup_returns (zmax : R) :
  default_zmin < zmax →
  ∃ self',
    setup_redshift_cdf (reference_population SourcePopulation)
      zmax default_zmin default_bins = Ok self'.
Proof.
  intros Hz.
  destruct (setup_redshift_cdf_run (reference_population SourcePopulation)
              zmax default_zmin default_bins) as (total & _ & Hrun).
  - unfold default_zmin in *. lra.
  - reflexivity.
  - eauto.
Qed.

Lemma reference_RedshiftIntegral_neq0 (zmax : R) :
  0 < zmax →
  quad (fun z => RedshiftDistribution (reference_population SourcePopulation) z)
    0 zmax <> 0.
Proof.
  intros Hz. rewrite reference_RedshiftIntegral.
  pose proof PI_RGT_0.
  assert (0 < 4 * PI / 3 * (zmax * zmax * zmax)); [|lra].
  apply Rmult_lt_0_compat; [lra | repeat apply Rmult_lt_0_compat; lra].
Qed.

Lemma StandardCandleSources_denominator_bounds_witness :
  ∃ v calls denominator,
    StandardCandleSources (reference_population SourcePopulation)
      1e-8 1e-7 1 2.0 fresh
    = (Ok v, World (calls ++ [denominator]) 0)
    ∧ length calls = 3%nat
    ∧ lower denominator = 0
    ∧ upper denominator = 10.
Proof.
  destruct (StandardCandleSources_denominator_bounds
              (reference_population SourcePopulation) 1e-8 1e-7 1 2.0 fresh)
    as [Hreturns _].
  specialize (Hreturns (reference_RedshiftIntegral_neq0 1 ltac:(lra))).
  eexists _, _, _. split; [exact Hreturns|].
  split; [reflexivity|]. split; reflexivity.
Defined.

Lemma RedshiftDistribution_positive_witness :
  0 < RedshiftDistribution
        (init TransientSourcePopulation module_cosmology
           (law Evol.HopkinsBeacom2006StarFormationRate)) 2.
Proof.
  apply (RedshiftDistribution_positive TransientSourcePopulation
           module_cosmology Evol.HopkinsBeacom2006StarFormationRate 2).
  - unfold Evol.variants. simpl. tauto.
  - lra.
  - simpl. lra.
Defined.

Lemma setup_redshift_cdf_errors_witness :
  setup_redshift_cdf (reference_population SourcePopulation)
    0.0001 default_zmin default_bins
  = Raise IndexError.
Proof.
  apply (setup_redshift_cdf_errors (reference_population SourcePopulation)
           0.0001 default_zmin default_bins).
  - reflexivity.
  - unfold default_zmin. lra.
Defined.

Lemma setup_redshift_cdf_keeps_queries_witness :
  ∃ self',
    setup_redshift_cdf (reference_population SourcePopulation)
      1 default_zmin default_bins = Ok self'
    ∧ ∀ density z w,
        Nsources self' density z w
        = Nsources (reference_population SourcePopulation) density z w.
Proof.
  destruct (reference_setup_returns 1) as [self' Hrun].
  - unfold default_zmin. lra.
  - exists self'. split; [exact Hrun|].
    apply (setup_redshift_cdf_keeps_queries _ _ _ _ _ Hrun).
Defined.

Lemma setup_redshift_cdf_rebuild_witness :
  ∃ self1,
    setup_redshift_cdf (reference_population SourcePopulation)
      1 default_zmin default_bins = Ok self1
    ∧ setup_redshift_cdf self1 10 default_zmin default_bins
      = setup_redshift_cdf (reference_population SourcePopulation)
          10 default_zmin default_bins.
Proof.
  destruct (reference_setup_returns 1) as [self1 Hrun].
  - unfold default_zmin. lra.
  - exists self1. split; [exact Hrun|].
    apply (setup_redshift_cdf_rebuild _ _ _ _ _ _ _ _ Hrun).
Defined.

Lemma sample_redshift_never_returns_witness :
  ∃ self1 self2,
    setup_redshift_cdf (reference_population SourcePopulation)
      1 default_zmin default_bins = Ok self1
    ∧ setup_redshift_cdf self1 10 default_zmin default_bins = Ok self2
    ∧ fst (sample_redshift self2 1000 fresh)
      = Raise (AttributeError "redshif_cdf").
Proof.
  destruct (reference_setup_returns 1) as [self1 Hrun1];
    [unfold default_zmin; lra|].
  destruct (reference_setup_returns 10) as [self2 Hrun2];
    [unfold default_zmin; lra|].
  destruct (setup_redshift_cdf_inv _ _ _ _ _ Hrun1) as (edges & cdf & E).
  rewrite <- (setup_redshift_cdf_setattr _ edges cdf), <- E in Hrun2.
  exists self1, self2. split; [exact Hrun1|]. split; [exact Hrun2|].
  apply (sample_redshift_never_returns SourcePopulation module_cosmology
           (law Evol.NoEvolution) self2 1000 fresh); [|lia].
  eapply built_setup; [|exact Hrun2].
  eapply built_setup; [|exact Hrun1].
  apply built_init.
Defined.

Lemma sample_redshift_draws_before_raising_witness :
  drawn (snd (sample_redshift (reference_population SourcePopulation)
                5 fresh)) = 5%nat.
Proof.
  apply (sample_redshift_draws_before_raising SourcePopulation
           module_cosmology (law Evol.NoEvolution)
           (reference_population SourcePopulation) 5 fresh).
  - apply built_init.
  - lia.
Defined.

Lemma Nsources_ZeroDivisionError_witness :
  fst (Nsources (reference_population SourcePopulation) 1e-7 0 fresh)
  = Raise ZeroDivisionError.
Proof.
  rewrite (Nsources_ZeroDivisionError
             (reference_population SourcePopulation) 1e-7 0 fresh).
  - reflexivity.
  - rewrite reference_RedshiftIntegral. lra.
Defined.

Lemma Nsources_at_zlocal_witness :
  fst (Nsources (reference_population SourcePopulation) 1e-7 0.01 fresh)
  = Ok (1e-7 * (4 * PI / 3 * (0.01 * 0.01 * 0.01))).
Proof.
  refine (Nsources_at_zlocal (reference_population SourcePopulation)
            1e-7 fresh _).
  apply reference_RedshiftIntegral_neq0. simpl. lra.
Defined.




End FurtherEvaluation.

Section ExactFurtherEvaluation.

#[local] Existing Instance hubble_law.
#[local] Existing Instance exact_unit.
#[local] Existing Instance exact_laws.

Lemma setup_redshift_cdf_unit_interval_witness :
  ∃ self' cdf,
    setup_redshift_cdf_fl (reference_population SourcePopulation)
      10 default_zmin default_bins = Ok self'
    ∧ getattr self' "redshift_cdf" = Ok cdf
    ∧ Forall (fun c => 0 <= c <= 1) cdf.
Proof.
  apply (setup_redshift_cdf_unit_interval
           (reference_population SourcePopulation)
           10 default_zmin (16 * (11 * 11)) default_bins).
  - unfold default_bins. lia.
  - unfold default_bins, default_zmin. simpl. lra.
  - unfold default_bins, default_zmin. lra.
  - simpl. lra.
  - simpl. lra.
  - unfold default_bins. rewrite plus_IZR. simpl. lra.
  - intros z Hz. apply reference_RedshiftDistribution_fl_range.
    unfold default_zmin in Hz. lra.
Defined.

End ExactFurtherEvaluation.

Section MidpointEvaluation.

#[local] Existing Instance hubble_law.
#[local] Existing Instance midpoint_rule.
#[local] Existing Instance midpoint_source.

Lemma midpoint_RedshiftIntegral_neq0 (zmax : R) :
  0 < zmax →
  quad (fun z => RedshiftDistribution (reference_population SourcePopulation) z)
    0 zmax <> 0.
Proof.
  intros Hz. unfold quad, midpoint_rule.
  pose proof (reference_RedshiftDistribution_pos ((0 + zmax) / 2)
                ltac:(lra)).
  nra.
Qed.


End MidpointEvaluation.
